(* ===================================================================== *)
(* rate-gate: a sliding-window rate limiter over a pluggable backend.    *)
(*                                                                       *)
(* Shallow embedding of src/rate-gate.ts.                                *)
(*                                                                       *)
(*  - JavaScript numbers that the limiter handles (epoch milliseconds,   *)
(*    the limit, the window) are integers, modelled as Z.  The one place *)
(*    where the code can produce a non-number is `validTimestamps[0]` on *)
(*    an empty array (undefined, which arithmetic turns into NaN), so    *)
(*    the results of that arithmetic live in [jsnum].                    *)
(*  - `Date.now()` is read once at the top of every method; it is the    *)
(*    [now] argument of the embedded method.                             *)
(*  - The methods are written once against the RateGateBackend           *)
(*    interface, as programs of backend calls ([backendM]); the          *)
(*    MemoryBackend interprets them over a finite map.                   *)
(*  - `filter` allocates a fresh array, so the array that `hit` pushes   *)
(*    to and stores is never shared with a previously stored one: value  *)
(*    semantics for the stored sequences is exact.                       *)
(* ===================================================================== *)

From stdpp Require Import gmap strings list fin_maps pretty sorting.
From Stdlib Require Import ZArith Lia.

Local Open Scope Z_scope.

(* --------------------------------------------------------------------- *)
(* JavaScript numbers, as far as the limiter needs them                  *)
(* --------------------------------------------------------------------- *)

Inductive jsnum : Type :=
| Num (z : Z)
| NaN.

(* `a[0]`: the first element, or undefined. *)
Definition index0 (a : list Z) : option Z := a !! 0%nat.

(* undefined used as an operand of + or - is NaN. *)
Definition to_number (v : option Z) : jsnum :=
  match v with
  | Some z => Num z
  | None => NaN
  end.

Definition jsnum_lift (f : Z → Z) (x : jsnum) : jsnum :=
  match x with
  | Num z => Num (f z)
  | NaN => NaN
  end.

(* Ceiling of x / d for d > 0, on integers.  For the integers at hand
   (differences of epoch milliseconds) the floating-point quotient
   followed by `Math.ceil` gives this value. *)
Definition ceil_div (x d : Z) : Z := - ((- x) / d).

(* `Math.ceil(x / 1000)` *)
Definition math_ceil_div1000 (x : jsnum) : jsnum :=
  jsnum_lift (λ z, ceil_div z 1000) x.

(* `Math.max(0, x)`; NaN is contagious. *)
Definition math_max0 (x : jsnum) : jsnum := jsnum_lift (Z.max 0) x.

(* template-literal rendering `${x}` *)
Definition jsnum_to_string (x : jsnum) : string :=
  match x with
  | Num z => pretty z
  | NaN => "NaN"
  end.

(* --------------------------------------------------------------------- *)
(* Options, error and backend interface                                  *)
(* --------------------------------------------------------------------- *)

Record RateGateOptions : Type := {
  opt_limit : Z;
  opt_windowMs : option Z;
  opt_category : option string;
}.

Record RateLimitError : Type := {
  message : string;
  name : string;
  resetIn_of : jsnum;
  limit_of : Z;
  windowMs_of : Z;
}.

(* constructor of RateLimitError *)
Definition new_RateLimitError (msg : string) (resetIn : jsnum) (lim w : Z)
  : RateLimitError :=
  {| message := msg; name := "RateLimitError";
     resetIn_of := resetIn; limit_of := lim; windowMs_of := w |}.

(* The four methods of RateGateBackend, over a backend state [B]. *)
Class RateGateBackend (B : Type) : Type := {
  backend_get : string → B → list Z;
  backend_set : string → list Z → B → B;
  backend_delete : string → B → B;
  backend_keys : B → list string;
}.

(* MemoryBackend: `store = new Map<string, number[]>()`.
   `keys()` lists the keys of the map; the order in which a finite map
   lists them is not the insertion order of a JavaScript Map. *)
Abbreviation MemoryBackend := (gmap string (list Z)).

Global Instance MemoryBackend_backend : RateGateBackend MemoryBackend := {
  backend_get key store := default [] (store !! key);
  backend_set key timestamps store := <[key := timestamps]> store;
  backend_delete key store := delete key store;
  backend_keys store := (map_to_list store).*1;
}.

(* --------------------------------------------------------------------- *)
(* Programs of backend calls                                             *)
(* --------------------------------------------------------------------- *)

Inductive backendM (A : Type) : Type :=
| Ret (a : A)
| Get (key : string) (k : list Z → backendM A)
| SetTs (key : string) (timestamps : list Z) (k : backendM A)
| Delete (key : string) (k : backendM A)
| Keys (k : list string → backendM A).

Arguments Ret {A} a.
Arguments Get {A} key k.
Arguments SetTs {A} key timestamps k.
Arguments Delete {A} key k.
Arguments Keys {A} k.

Fixpoint bind {A C : Type} (m : backendM A) (f : A → backendM C) : backendM C :=
  match m with
  | Ret a => f a
  | Get key k => Get key (λ ts, bind (k ts) f)
  | SetTs key ts k => SetTs key ts (bind k f)
  | Delete key k => Delete key (bind k f)
  | Keys k => Keys (λ ks, bind (k ks) f)
  end.

Definition get (key : string) : backendM (list Z) := Get key Ret.
Definition set (key : string) (timestamps : list Z) : backendM unit :=
  SetTs key timestamps (Ret tt).
Definition del (key : string) : backendM unit := Delete key (Ret tt).
Definition keys : backendM (list string) := Keys Ret.

Global Instance backendM_ret : MRet backendM := @Ret.
Global Instance backendM_bind : MBind backendM := λ A C f m, bind m f.

(* The backend calls a program performed, in order. *)
Inductive call : Type :=
| CGet (key : string)
| CSet (key : string) (timestamps : list Z)
| CDelete (key : string)
| CKeys.

Definition is_write (c : call) : bool :=
  match c with
  | CSet _ _ | CDelete _ => true
  | CGet _ | CKeys => false
  end.

(* Running a program on a backend: result, final backend state, calls. *)
Fixpoint exec {B} `{RateGateBackend B} {A : Type} (m : backendM A) (b : B)
  : A * B * list call :=
  match m with
  | Ret a => (a, b, [])
  | Get key k =>
      let '(a, b', log) := exec (k (backend_get key b)) b in
      (a, b', CGet key :: log)
  | SetTs key ts k =>
      let '(a, b', log) := exec k (backend_set key ts b) in
      (a, b', CSet key ts :: log)
  | Delete key k =>
      let '(a, b', log) := exec k (backend_delete key b) in
      (a, b', CDelete key :: log)
  | Keys k =>
      let '(a, b', log) := exec (k (backend_keys b)) b in
      (a, b', CKeys :: log)
  end.

Definition result {B} `{RateGateBackend B} {A} (m : backendM A) (b : B) : A :=
  (exec m b).1.1.
Definition final {B} `{RateGateBackend B} {A} (m : backendM A) (b : B) : B :=
  (exec m b).1.2.
Definition calls {B} `{RateGateBackend B} {A} (m : backendM A) (b : B)
  : list call :=
  (exec m b).2.

(* --------------------------------------------------------------------- *)
(* RateGate                                                              *)
(* --------------------------------------------------------------------- *)

Record RateGate : Type := {
  limit : Z;
  windowMs : Z;
  category : string;
}.

(* constructor: `options.windowMs ?? 60000`, `options.category ?? "rate-limit"` *)
Definition new_RateGate (options : RateGateOptions) : RateGate :=
  {| limit := opt_limit options;
     windowMs := default 60000 (opt_windowMs options);
     category := default "rate-limit" (opt_category options) |}.

Definition createRateGate (options : RateGateOptions) : RateGate :=
  new_RateGate options.

(* `timestamps.filter((ts) => ts > windowStart)` *)
Definition valid (windowStart : Z) (timestamps : list Z) : list Z :=
  filter (λ ts, ts > windowStart) timestamps.

Section Methods.
Context (this : RateGate).

Definition check (key : string) (now : Z) : backendM bool :=
  let windowStart := now - windowMs this in
  timestamps ← get key;
  let validTimestamps := valid windowStart timestamps in
  Ret (bool_decide (Z.of_nat (length validTimestamps) < limit this)).

Definition hit (key : string) (now : Z) : backendM (RateLimitError + unit) :=
  let windowStart := now - windowMs this in
  timestamps ← get key;
  let validTimestamps := valid windowStart timestamps in
  if bool_decide (Z.of_nat (length validTimestamps) >= limit this) then
    let oldestTimestamp := index0 validTimestamps in
    let resetIn :=
      math_ceil_div1000
        (jsnum_lift (λ o, o + windowMs this - now) (to_number oldestTimestamp)) in
    Ret (inl (new_RateLimitError
                ("Rate limit exceeded for " +:+ category this +:+
                 ". Try again in " +:+ jsnum_to_string resetIn +:+ "s.")
                resetIn (limit this) (windowMs this)))
  else
    set key (validTimestamps ++ [now]);;
    Ret (inr tt).

Definition resetIn (key : string) (now : Z) : backendM jsnum :=
  let windowStart := now - windowMs this in
  timestamps ← get key;
  let validTimestamps := valid windowStart timestamps in
  if bool_decide (length validTimestamps = 0%nat) then
    Ret (Num 0)
  else
    let oldestTimestamp := index0 validTimestamps in
    let resetMs :=
      jsnum_lift (λ o, o + windowMs this - now) (to_number oldestTimestamp) in
    Ret (math_max0 (math_ceil_div1000 resetMs)).

Definition remaining (key : string) (now : Z) : backendM Z :=
  let windowStart := now - windowMs this in
  timestamps ← get key;
  let validTimestamps := valid windowStart timestamps in
  Ret (Z.max 0 (limit this - Z.of_nat (length validTimestamps))).

(* body of `for (const key of allKeys)` *)
Definition cleanup_key (windowStart : Z) (key : string) : backendM unit :=
  timestamps ← get key;
  let validTimestamps := valid windowStart timestamps in
  if bool_decide (length validTimestamps = 0%nat) then
    del key
  else if bool_decide (length validTimestamps < length timestamps)%nat then
    set key validTimestamps
  else
    Ret tt.

Fixpoint cleanup_loop (windowStart : Z) (allKeys : list string) : backendM unit :=
  match allKeys with
  | [] => Ret tt
  | key :: rest =>
      cleanup_key windowStart key;;
      cleanup_loop windowStart rest
  end.

Definition cleanup (now : Z) : backendM unit :=
  let windowStart := now - windowMs this in
  allKeys ← keys;
  cleanup_loop windowStart allKeys.

(* consecutive `gate.hit(key)` calls, one per instant of [times] *)
Fixpoint hits (key : string) (times : list Z)
  : backendM (list (RateLimitError + unit)) :=
  match times with
  | [] => Ret []
  | now :: rest =>
      r ← hit key now;
      rs ← hits key rest;
      Ret (r :: rs)
  end.
End Methods.

(* --------------------------------------------------------------------- *)
(* Vocabulary of the statements                                          *)
(* --------------------------------------------------------------------- *)

(* [t] lies in the window of length windowMs that opens at [start]. *)
Definition within_window (this : RateGate) (start t : Z) : Prop :=
  start ≤ t < start + windowMs this.

Global Instance within_window_dec this start t : Decision (within_window this start t).
Proof. unfold within_window. apply _. Defined.

(* the outcome of a `hit` that did not throw *)
Definition admitted (r : RateLimitError + unit) : Prop := r = inr tt.

Global Instance admitted_dec r : Decision (admitted r).
Proof. unfold admitted. destruct r as [e|[]]; [right|left]; done. Defined.

(* What a sweep leaves of a stored sequence: nothing when no entry is
   valid any more, the valid entries otherwise. *)
Definition swept (windowStart : Z) (timestamps : list Z) : option (list Z) :=
  let validTimestamps := valid windowStart timestamps in
  if bool_decide (validTimestamps = []) then None else Some validTimestamps.

(* The backend calls that the loop body makes for one key. *)
Definition cleanup_key_calls {B : Type} `{RateGateBackend B}
    (windowStart : Z) (b : B) (key : string) : list call :=
  let timestamps := backend_get key b in
  let validTimestamps := valid windowStart timestamps in
  CGet key ::
  (if bool_decide (validTimestamps = []) then [CDelete key]
   else if bool_decide (length validTimestamps < length timestamps)%nat
        then [CSet key validTimestamps]
        else []).

(* every stored sequence has at most [limit] entries *)
Definition bounded (this : RateGate) (st : MemoryBackend) : Prop :=
  ∀ key timestamps, st !! key = Some timestamps →
                    Z.of_nat (length timestamps) ≤ limit this.

(* one call of a public method, at the instant the clock reads *)
Inductive gate_call : Type :=
| CallCheck (key : string) (now : Z)
| CallHit (key : string) (now : Z)
| CallResetIn (key : string) (now : Z)
| CallRemaining (key : string) (now : Z)
| CallCleanup (now : Z).

(* the backend after the call *)
Definition after (this : RateGate) (c : gate_call) (st : MemoryBackend)
  : MemoryBackend :=
  match c with
  | CallCheck key now => final (check this key now) st
  | CallHit key now => final (hit this key now) st
  | CallResetIn key now => final (resetIn this key now) st
  | CallRemaining key now => final (remaining this key now) st
  | CallCleanup now => final (cleanup this now) st
  end.

(* the backend after a series of calls on a new MemoryBackend *)
Definition after_all (this : RateGate) (cs : list gate_call) : MemoryBackend :=
  foldl (λ st c, after this c st) ∅ cs.

(* the instant at which a call reads the clock *)
Definition call_time (c : gate_call) : Z :=
  match c with
  | CallCheck _ now | CallHit _ now | CallResetIn _ now
  | CallRemaining _ now | CallCleanup now => now
  end.

(* the instants of the hits that were admitted, given the instants of all
   hits and their outcomes, in order *)
Fixpoint admitted_times (times : list Z) (outcomes : list (RateLimitError + unit))
  : list Z :=
  match times, outcomes with
  | now :: times', r :: outcomes' =>
      if decide (admitted r) then now :: admitted_times times' outcomes'
      else admitted_times times' outcomes'
  | _, _ => []
  end.

(* every stored sequence is non-empty, in non-decreasing order and holds
   no timestamp after [hi] *)
Definition tidy (hi : Z) (st : MemoryBackend) : Prop :=
  ∀ key timestamps, st !! key = Some timestamps →
    timestamps ≠ [] ∧ StronglySorted Z.le timestamps ∧
    Forall (λ ts, ts ≤ hi) timestamps.

(* gates of the repository's tests *)
Definition gate_2_1000 : RateGate :=
  new_RateGate {| opt_limit := 2; opt_windowMs := Some 1000; opt_category := Some "test" |}.

Definition gate_3_1000 : RateGate :=
  new_RateGate {| opt_limit := 3; opt_windowMs := Some 1000; opt_category := None |}.

Definition gate_1_1000 : RateGate :=
  new_RateGate {| opt_limit := 1; opt_windowMs := Some 1000; opt_category := None |}.

(* --------------------------------------------------------------------- *)
(* Tests of the repository, replayed on the model                        *)
(* --------------------------------------------------------------------- *)

Example blocks_requests_over_limit :
  (result (hits gate_2_1000 "user1" [5; 6; 7]) (∅ : MemoryBackend)) =
  [inr tt; inr tt;
   inl (new_RateLimitError "Rate limit exceeded for test. Try again in 1s."
          (Num 1) 2 1000)].
Proof. vm_compute. reflexivity. Qed.

Example remaining_returns_correct_count :
  let b1 := final (hit gate_3_1000 "user1" 10) (∅ : MemoryBackend) in
  result (remaining gate_3_1000 "user1" 9) (∅ : MemoryBackend) = 3 ∧
  result (remaining gate_3_1000 "user1" 11) b1 = 2.
Proof. vm_compute. done. Qed.

Example resetIn_returns_correct_value :
  let b1 := final (hit gate_1_1000 "user1" 10) (∅ : MemoryBackend) in
  result (resetIn gate_1_1000 "user1" 10) b1 = Num 1 ∧
  result (resetIn gate_1_1000 "user1" 1110) b1 = Num 0.
Proof. vm_compute. done. Qed.

Example check_method_works_correctly :
  let b0 : MemoryBackend := ∅ in
  let b1 := final (hit gate_2_1000 "user1" 10) b0 in
  let b2 := final (hit gate_2_1000 "user1" 11) b1 in
  result (check gate_2_1000 "user1" 9) b0 = true ∧
  result (check gate_2_1000 "user1" 10) b1 = true ∧
  result (check gate_2_1000 "user1" 12) b2 = false ∧
  result (check gate_2_1000 "user1" 1112) b2 = true.
Proof. vm_compute. done. Qed.

Example createRateGate_convenience_function :
  let gate := createRateGate {| opt_limit := 1; opt_windowMs := Some 1000;
                                opt_category := None |} in
  category gate = "rate-limit" ∧
  ∃ e, result (hits gate "user1" [10; 11]) (∅ : MemoryBackend) = [inr tt; inl e].
Proof. split; [reflexivity|]. eexists. vm_compute. reflexivity. Qed.

(* Outside the documented domain (limit 0) the first hit on a new key
   throws with an empty pruned sequence, and the delay is not a number. *)
Example hit_limit_zero :
  result (hit {| limit := 0; windowMs := 1000; category := "api" |} "user1" 10)
         (∅ : MemoryBackend)
  = inl (new_RateLimitError "Rate limit exceeded for api. Try again in NaNs."
           NaN 0 1000).
Proof. vm_compute. reflexivity. Qed.

(* --------------------------------------------------------------------- *)
(* Arithmetic of the reset delay                                         *)
(* --------------------------------------------------------------------- *)

Lemma ceil_div_spec (x d : Z) :
  0 < d → d * (ceil_div x d - 1) < x ≤ d * ceil_div x d.
Proof.
  intros Hd. unfold ceil_div.
  pose proof (Z.div_mod (- x) d ltac:(lia)) as Hdm.
  pose proof (Z.mod_pos_bound (- x) d Hd) as Hb.
  nia.
Qed.

Lemma ceil_div_pos (x d : Z) : 0 < d → 0 < x → 0 < ceil_div x d.
Proof.
  intros Hd Hx. pose proof (ceil_div_spec x d Hd). nia.
Qed.

(* --------------------------------------------------------------------- *)
(* The prune step                                                        *)
(* --------------------------------------------------------------------- *)

Lemma elem_of_valid (windowStart ts : Z) (l : list Z) :
  ts ∈ valid windowStart l ↔ ts > windowStart ∧ ts ∈ l.
Proof. unfold valid. by rewrite list_elem_of_filter. Qed.

Lemma valid_app (windowStart : Z) (l1 l2 : list Z) :
  valid windowStart (l1 ++ l2) = valid windowStart l1 ++ valid windowStart l2.
Proof. unfold valid. apply filter_app. Qed.

Lemma valid_all (windowStart : Z) (l : list Z) :
  Forall (λ ts, ts > windowStart) l → valid windowStart l = l.
Proof.
  unfold valid. induction 1 as [|ts l Hts _ IH]; [done|].
  rewrite filter_cons_True by done. by rewrite IH.
Qed.

Lemma Forall_valid (windowStart : Z) (l : list Z) :
  Forall (λ ts, ts > windowStart) (valid windowStart l).
Proof.
  apply Forall_forall. intros ts Hts. by apply elem_of_valid in Hts as [? _].
Qed.

Lemma valid_idemp (windowStart : Z) (l : list Z) :
  valid windowStart (valid windowStart l) = valid windowStart l.
Proof. apply valid_all, Forall_valid. Qed.

Lemma length_valid (windowStart : Z) (l : list Z) :
  (length (valid windowStart l) ≤ length l)%nat.
Proof. unfold valid. apply length_filter. Qed.

Lemma valid_same_length (windowStart : Z) (l : list Z) :
  length (valid windowStart l) = length l → valid windowStart l = l.
Proof.
  unfold valid. induction l as [|ts l IH]; [done|].
  rewrite filter_cons. case_decide; simpl; intros Hlen.
  - f_equal. apply IH. lia.
  - pose proof (length_filter (λ ts, ts > windowStart) l). lia.
Qed.

(* --------------------------------------------------------------------- *)
(* Running programs                                                      *)
(* --------------------------------------------------------------------- *)

Section Exec.
Context {B : Type} `{RateGateBackend B}.

Lemma exec_bind {A C} (m : backendM A) (f : A → backendM C) (b : B) :
  exec (m ≫= f) b =
  let '(a, b1, log1) := exec m b in
  let '(c, b2, log2) := exec (f a) b1 in
  (c, b2, log1 ++ log2).
Proof.
  unfold mbind, backendM_bind.
  revert b. induction m as [a|key k IH|key ts k IH|key k IH|k IH]; intros b; simpl.
  - by destruct (exec (f a) b) as [[c b2] log2].
  - rewrite IH. destruct (exec (k _) b) as [[a b1] log1].
    by destruct (exec (f a) b1) as [[c b2] log2].
  - rewrite IH. destruct (exec k _) as [[a b1] log1].
    by destruct (exec (f a) b1) as [[c b2] log2].
  - rewrite IH. destruct (exec k _) as [[a b1] log1].
    by destruct (exec (f a) b1) as [[c b2] log2].
  - rewrite IH. destruct (exec (k _) b) as [[a b1] log1].
    by destruct (exec (f a) b1) as [[c b2] log2].
Qed.

Context (this : RateGate).

Lemma exec_check (key : string) (now : Z) (b : B) :
  exec (check this key now) b =
  (bool_decide (Z.of_nat (length (valid (now - windowMs this) (backend_get key b)))
                < limit this),
   b, [CGet key]).
Proof. reflexivity. Qed.

Lemma exec_remaining (key : string) (now : Z) (b : B) :
  exec (remaining this key now) b =
  (Z.max 0 (limit this
            - Z.of_nat (length (valid (now - windowMs this) (backend_get key b)))),
   b, [CGet key]).
Proof. reflexivity. Qed.

Lemma exec_resetIn_empty (key : string) (now : Z) (b : B) :
  valid (now - windowMs this) (backend_get key b) = [] →
  exec (resetIn this key now) b = (Num 0, b, [CGet key]).
Proof. intros Hv. unfold resetIn. simpl. by rewrite Hv. Qed.

Lemma exec_resetIn_cons (key : string) (now : Z) (b : B) (oldest : Z) (rest : list Z) :
  valid (now - windowMs this) (backend_get key b) = oldest :: rest →
  exec (resetIn this key now) b =
  (Num (Z.max 0 (ceil_div (oldest + windowMs this - now) 1000)), b, [CGet key]).
Proof. intros Hv. unfold resetIn. simpl. by rewrite Hv. Qed.

Lemma exec_resetIn (key : string) (now : Z) (b : B) :
  exec (resetIn this key now) b =
  (Num (match valid (now - windowMs this) (backend_get key b) with
        | [] => 0
        | oldest :: _ => Z.max 0 (ceil_div (oldest + windowMs this - now) 1000)
        end),
   b, [CGet key]).
Proof.
  destruct (valid (now - windowMs this) (backend_get key b))
    as [|oldest rest] eqn:Hv.
  - by apply exec_resetIn_empty.
  - by apply (exec_resetIn_cons key now b oldest rest).
Qed.

Lemma exec_hit_ok (key : string) (now : Z) (b : B) :
  Z.of_nat (length (valid (now - windowMs this) (backend_get key b))) < limit this →
  exec (hit this key now) b =
  (inr tt,
   backend_set key (valid (now - windowMs this) (backend_get key b) ++ [now]) b,
   [CGet key; CSet key (valid (now - windowMs this) (backend_get key b) ++ [now])]).
Proof.
  intros Hlt. unfold hit. simpl.
  rewrite bool_decide_eq_false_2 by lia. reflexivity.
Qed.

Lemma exec_hit_fail (key : string) (now : Z) (b : B) :
  limit this ≤ Z.of_nat (length (valid (now - windowMs this) (backend_get key b))) →
  exec (hit this key now) b =
  (let resetIn :=
     math_ceil_div1000
       (jsnum_lift (λ o, o + windowMs this - now)
          (to_number (index0 (valid (now - windowMs this) (backend_get key b))))) in
   inl (new_RateLimitError
          ("Rate limit exceeded for " +:+ category this +:+
           ". Try again in " +:+ jsnum_to_string resetIn +:+ "s.")
          resetIn (limit this) (windowMs this)),
   b, [CGet key]).
Proof.
  intros Hge. unfold hit. simpl.
  rewrite bool_decide_eq_true_2 by lia. reflexivity.
Qed.

(* At the limit with a positive limit, the pruned sequence has a first
   element and the delay in the error is a number. *)
Lemma exec_hit_fail_oldest (key : string) (now : Z) (b : B) :
  0 < limit this →
  limit this ≤ Z.of_nat (length (valid (now - windowMs this) (backend_get key b))) →
  ∃ oldest rest,
    valid (now - windowMs this) (backend_get key b) = oldest :: rest ∧
    exec (hit this key now) b =
      (inl {| message :=
                "Rate limit exceeded for " +:+ category this +:+
                ". Try again in " +:+
                pretty (ceil_div (oldest + windowMs this - now) 1000) +:+ "s.";
              name := "RateLimitError";
              resetIn_of := Num (ceil_div (oldest + windowMs this - now) 1000);
              limit_of := limit this;
              windowMs_of := windowMs this |},
       b, [CGet key]).
Proof.
  intros Hpos Hge. rewrite exec_hit_fail by done.
  destruct (valid (now - windowMs this) (backend_get key b))
    as [|oldest rest]; [simpl in Hge; lia|].
  exists oldest, rest. split; reflexivity.
Qed.

Lemma exec_hits_cons (key : string) (now : Z) (rest : list Z) (b : B) :
  exec (hits this key (now :: rest)) b =
  let '(r, b1, log1) := exec (hit this key now) b in
  let '(rs, b2, log2) := exec (hits this key rest) b1 in
  (r :: rs, b2, log1 ++ log2).
Proof.
  change (hits this key (now :: rest))
    with (hit this key now ≫= λ r, hits this key rest ≫= λ rs, Ret (r :: rs)).
  rewrite exec_bind.
  destruct (exec (hit this key now) b) as [[r b1] log1].
  rewrite exec_bind.
  destruct (exec (hits this key rest) b1) as [[rs b2] log2].
  simpl. by rewrite app_nil_r.
Qed.
End Exec.

(* --------------------------------------------------------------------- *)
(* Hits within one window                                                *)
(* --------------------------------------------------------------------- *)

Lemma window_all_valid (this : RateGate) (start now : Z) (l : list Z) :
  within_window this start now →
  Forall (within_window this start) l →
  valid (now - windowMs this) l = l.
Proof.
  intros Hnow Hl. apply valid_all. eapply Forall_impl; [exact Hl|].
  unfold within_window in *. simpl. intros; lia.
Qed.

Section MemoryHits.
Context (this : RateGate) (key : string) (start : Z).

(* Hits inside one window on a key whose stored sequence lies in that
   window, as long as there is room: all admitted, all recorded. *)
Lemma hits_fill (times : list Z) :
  ∀ (st : MemoryBackend) (sfx : list Z),
    backend_get key st = sfx →
    Forall (within_window this start) sfx →
    Forall (within_window this start) times →
    Z.of_nat (length sfx + length times) ≤ limit this →
    result (hits this key times) st = replicate (length times) (inr tt) ∧
    backend_get key (final (hits this key times) st) = sfx ++ times.
Proof.
  unfold result, final.
  induction times as [|now rest IH]; intros st sfx Hget Hsfx Htimes Hroom.
  - simpl. by rewrite app_nil_r.
  - apply Forall_cons in Htimes as [Hnow Hrest].
    rewrite exec_hits_cons, exec_hit_ok; rewrite Hget,
      (window_all_valid this start now sfx Hnow Hsfx);
      [|simpl in Hroom; lia].
    destruct (IH (backend_set key (sfx ++ [now]) st) (sfx ++ [now]))
      as [IHr IHf].
    + simpl. by rewrite lookup_insert_eq.
    + apply Forall_app; split; [done|]. by apply Forall_singleton.
    + done.
    + rewrite length_app. simpl in *. lia.
    + destruct (exec (hits this key rest) _) as [[rs b2] log2].
      simpl in *. split; [by rewrite IHr|]. by rewrite IHf, <- app_assoc.
Qed.

(* Hits inside one window that were all admitted are all still stored,
   whatever the key held before. *)
Lemma hits_keep (times : list Z) :
  ∀ (st : MemoryBackend) (pre sfx : list Z),
    backend_get key st = pre ++ sfx →
    Forall (within_window this start) sfx →
    Forall (within_window this start) times →
    Forall admitted (result (hits this key times) st) →
    ∃ pre', backend_get key (final (hits this key times) st)
            = pre' ++ sfx ++ times.
Proof.
  unfold result, final.
  induction times as [|now rest IH]; intros st pre sfx Hget Hsfx Htimes Hok.
  - exists pre. simpl. by rewrite app_nil_r.
  - apply Forall_cons in Htimes as [Hnow Hrest].
    rewrite exec_hits_cons in Hok |- *.
    destruct (decide (Z.of_nat (length (valid (now - windowMs this)
                                          (backend_get key st))) < limit this))
      as [Hlt|Hge].
    + rewrite exec_hit_ok in Hok |- * by done.
      rewrite Hget, valid_app,
        (window_all_valid this start now sfx Hnow Hsfx) in Hok |- *.
      set (pre1 := valid (now - windowMs this) pre) in *.
      destruct (IH (backend_set key ((pre1 ++ sfx) ++ [now]) st)
                  pre1 (sfx ++ [now])) as [pre' IHf].
      * simpl. by rewrite lookup_insert_eq, app_assoc.
      * apply Forall_app; split; [done|]. by apply Forall_singleton.
      * done.
      * destruct (exec (hits this key rest) _) as [[rs b2] log2].
        simpl in *. by apply Forall_cons in Hok as [_ ?].
      * exists pre'.
        destruct (exec (hits this key rest) _) as [[rs b2] log2].
        simpl in *. by rewrite IHf, <- app_assoc.
    + rewrite exec_hit_fail in Hok by lia.
      destruct (exec (hits this key rest) _) as [[rs b2] log2].
      simpl in Hok. apply Forall_cons in Hok as [Hbad _]. done.
Qed.
End MemoryHits.

(* Keys other than the one that is hit keep their stored sequence. *)
Lemma hit_other_key (this : RateGate) (k1 k2 : string) (now : Z)
    (st : MemoryBackend) :
  k1 ≠ k2 → final (hit this k1 now) st !! k2 = st !! k2.
Proof.
  intros Hne. unfold final.
  destruct (decide (Z.of_nat (length (valid (now - windowMs this)
                                        (backend_get k1 st))) < limit this)).
  - rewrite exec_hit_ok by done. simpl. by rewrite lookup_insert_ne.
  - rewrite exec_hit_fail by lia. done.
Qed.

Lemma hits_other_key (this : RateGate) (k1 k2 : string) (times : list Z) :
  k1 ≠ k2 →
  ∀ st : MemoryBackend, final (hits this k1 times) st !! k2 = st !! k2.
Proof.
  intros Hne. unfold final.
  induction times as [|now rest IH]; intros st; [done|].
  rewrite exec_hits_cons.
  pose proof (hit_other_key this k1 k2 now st Hne) as H1. unfold final in H1.
  destruct (exec (hit this k1 now) st) as [[r b1] log1].
  specialize (IH b1).
  destruct (exec (hits this k1 rest) b1) as [[rs b2] log2].
  simpl in *. congruence.
Qed.

(* --------------------------------------------------------------------- *)
(* Admission: hit, check, remaining                                      *)
(* --------------------------------------------------------------------- *)

(** C1. On a key with no recorded state, [n ≤ limit] consecutive hits
    whose instants lie in one window are all admitted.  The hit made after
    the hits at [done] finds exactly [done] as the valid sequence, appends
    its own instant and writes the result back with one `set`; after the
    last one `remaining` (asked inside the same window) is [limit - n]. *)
Theorem hits_under_limit (this : RateGate) (key : string) (st : MemoryBackend)
    (start : Z) (times : list Z) (later : Z) :
  backend_get key st = [] →
  Forall (within_window this start) times →
  within_window this start later →
  Z.of_nat (length times) ≤ limit this →
  result (hits this key times) st = replicate (length times) (inr tt) ∧
  (∀ done now todo, times = done ++ now :: todo →
     let st_i := final (hits this key done) st in
     valid (now - windowMs this) (backend_get key st_i) = done ∧
     exec (hit this key now) st_i =
       (inr tt, <[key := done ++ [now]]> st_i,
        [CGet key; CSet key (done ++ [now])])) ∧
  backend_get key (final (hits this key times) st) = times ∧
  result (remaining this key later) (final (hits this key times) st)
    = limit this - Z.of_nat (length times).
Proof.
  intros Hfresh Htimes Hlater Hroom.
  destruct (hits_fill this key start times st [] Hfresh (Forall_nil_2 _) Htimes)
    as [Hres Hfin]; [simpl; lia|].
  rewrite app_nil_l in Hfin. repeat split; [done| | |done|].
  - subst times. apply Forall_app in Htimes as [Hdone Hnow].
    apply Forall_cons in Hnow as [Hnow _].
    destruct (hits_fill this key start done st [] Hfresh (Forall_nil_2 _) Hdone)
      as [_ Hst_i]; [rewrite length_app in Hroom; simpl in *; lia|].
    rewrite app_nil_l in Hst_i. rewrite Hst_i.
    by apply (window_all_valid this start).
  - subst times. apply Forall_app in Htimes as [Hdone Hnow].
    apply Forall_cons in Hnow as [Hnow _].
    destruct (hits_fill this key start done st [] Hfresh (Forall_nil_2 _) Hdone)
      as [_ Hst_i]; [rewrite length_app in Hroom; simpl in *; lia|].
    rewrite app_nil_l in Hst_i.
    rewrite exec_hit_ok; rewrite Hst_i, (window_all_valid this start now done Hnow Hdone);
      [done|].
    rewrite length_app in Hroom. simpl in Hroom. lia.
  - unfold result. rewrite exec_remaining. cbn [fst].
    rewrite Hfin, (window_all_valid this start later times Hlater Htimes). lia.
Qed.

Lemma hits_under_limit_witness :
  backend_get "user1" (∅ : MemoryBackend) = [] ∧
  Forall (within_window gate_3_1000 10) [10; 400; 1009] ∧
  within_window gate_3_1000 10 1009 ∧
  Z.of_nat (length [10; 400; 1009]) ≤ limit gate_3_1000 ∧
  result (remaining gate_3_1000 "user1" 1009)
    (final (hits gate_3_1000 "user1" [10; 400; 1009]) (∅ : MemoryBackend)) = 0.
Proof.
  assert (H1 : backend_get "user1" (∅ : MemoryBackend) = []) by reflexivity.
  assert (H2 : Forall (within_window gate_3_1000 10) [10; 400; 1009])
    by compute_done.
  assert (H3 : within_window gate_3_1000 10 1009)
    by compute_done.
  assert (H4 : Z.of_nat (length [10; 400; 1009]) ≤ limit gate_3_1000)
    by (simpl; lia).
  split; [exact H1|]. split; [exact H2|]. split; [exact H3|]. split; [exact H4|].
  exact (proj2 (proj2 (proj2
    (hits_under_limit gate_3_1000 "user1" ∅ 10 [10; 400; 1009] 1009
       H1 H2 H3 H4)))).
Defined.

(** C2. `hit` throws exactly when the pruned sequence has at least
    [limit] entries, and then writes nothing.  For a positive limit the
    pruned sequence then has a first element [oldest], and the error
    carries [ceil ((oldest + windowMs - now) / 1000)], the configured limit
    and window, and a message that names the configured category. *)
Theorem hit_fails_iff_at_limit {B : Type} `{RateGateBackend B}
    (this : RateGate) (key : string) (now : Z) (b : B) :
  let validTimestamps := valid (now - windowMs this) (backend_get key b) in
  ((∃ e, result (hit this key now) b = inl e)
   ↔ Z.of_nat (length validTimestamps) >= limit this) ∧
  (0 < limit this →
   Z.of_nat (length validTimestamps) >= limit this →
   ∃ oldest rest,
     validTimestamps = oldest :: rest ∧
     exec (hit this key now) b =
       (inl {| message :=
                 "Rate limit exceeded for " +:+ category this +:+
                 ". Try again in " +:+
                 pretty (ceil_div (oldest + windowMs this - now) 1000) +:+ "s.";
               name := "RateLimitError";
               resetIn_of := Num (ceil_div (oldest + windowMs this - now) 1000);
               limit_of := limit this;
               windowMs_of := windowMs this |},
        b, [CGet key])).
Proof.
  intros validTimestamps. split.
  - unfold result. split.
    + intros [e He].
      destruct (decide (Z.of_nat (length validTimestamps) < limit this)) as [Hlt|];
        [|lia].
      rewrite exec_hit_ok in He by exact Hlt. done.
    + intros Hge. rewrite exec_hit_fail by (fold validTimestamps; lia).
      simpl. eauto.
  - intros Hpos Hge.
    apply exec_hit_fail_oldest; [done|]. fold validTimestamps. lia.
Qed.

Lemma hit_fails_iff_at_limit_witness :
  0 < limit gate_2_1000 ∧
  exec (hit gate_2_1000 "user1" 7)
       ({["user1" := [5; 6]]} : MemoryBackend) =
    (inl (new_RateLimitError "Rate limit exceeded for test. Try again in 1s."
            (Num 1) 2 1000),
     {["user1" := [5; 6]]}, [CGet "user1"]).
Proof.
  assert (Hpos : 0 < limit gate_2_1000) by (simpl; lia).
  split; [exact Hpos|].
  destruct (proj2 (hit_fails_iff_at_limit gate_2_1000 "user1" 7
                     ({["user1" := [5; 6]]} : MemoryBackend)) Hpos)
    as (oldest & rest & Hv & He).
  - vm_compute. discriminate.
  - rewrite He. vm_compute in Hv. injection Hv as <- <-. reflexivity.
Defined.

(** C3. After [limit] admitted hits inside one window (whatever the key
    held before), the next hit inside that window throws; its resetIn is a
    number strictly above 0 and its limit and windowMs are the configured
    ones; the backend is left as it was. *)
Theorem hit_over_limit_fails (this : RateGate) (key : string)
    (st : MemoryBackend) (start : Z) (times : list Z) (now : Z) :
  0 < limit this →
  Z.of_nat (length times) = limit this →
  Forall (within_window this start) times →
  within_window this start now →
  Forall admitted (result (hits this key times) st) →
  let st' := final (hits this key times) st in
  ∃ e r,
    exec (hit this key now) st' = (inl e, st', [CGet key]) ∧
    resetIn_of e = Num r ∧ 0 < r ∧
    limit_of e = limit this ∧ windowMs_of e = windowMs this.
Proof.
  intros Hpos Hlen Htimes Hnow Hok st'.
  destruct (hits_keep this key start times st (backend_get key st) []
              ltac:(by rewrite app_nil_r) (Forall_nil_2 _) Htimes Hok)
    as [pre' Hst'].
  fold st' in Hst'. rewrite app_nil_l in Hst'.
  assert (Hv : valid (now - windowMs this) (backend_get key st')
               = valid (now - windowMs this) pre' ++ times).
  { rewrite Hst', valid_app. f_equal. by apply (window_all_valid this start). }
  assert (Hge : Z.of_nat (length (valid (now - windowMs this)
                                    (backend_get key st'))) >= limit this).
  { rewrite Hv, length_app. lia. }
  destruct (exec_hit_fail_oldest this key now st' Hpos) as (oldest & rest & Hhead & He);
    [lia|].
  eexists _, _. split; [exact He|]. simpl. repeat split.
  apply ceil_div_pos; [lia|].
  assert (Hin : oldest ∈ valid (now - windowMs this) (backend_get key st'))
    by (rewrite Hhead; left).
  apply elem_of_valid in Hin as [? _]. lia.
Qed.

Lemma hit_over_limit_fails_witness :
  ∃ e, result (hit gate_2_1000 "user1" 7)
         (final (hits gate_2_1000 "user1" [5; 6]) (∅ : MemoryBackend)) = inl e ∧
       resetIn_of e = Num 1.
Proof.
  assert (Hpos : 0 < limit gate_2_1000) by (simpl; lia).
  assert (Hlen : Z.of_nat (length [5; 6]) = limit gate_2_1000) by reflexivity.
  assert (Htimes : Forall (within_window gate_2_1000 5) [5; 6])
    by compute_done.
  assert (Hnow : within_window gate_2_1000 5 7)
    by compute_done.
  assert (Hok : Forall admitted
                  (result (hits gate_2_1000 "user1" [5; 6]) (∅ : MemoryBackend)))
    by compute_done.
  destruct (hit_over_limit_fails gate_2_1000 "user1" ∅ 5 [5; 6] 7
              Hpos Hlen Htimes Hnow Hok) as (e & r & He & Hr & _).
  exists e. unfold result. rewrite He. split; [reflexivity|].
  rewrite Hr. f_equal.
  vm_compute in He. injection He as <-. simpl in Hr. by injection Hr.
Defined.

(** C4. `check` returns true exactly when the pruned sequence has
    strictly fewer than [limit] entries; its only backend call is the
    `get`, and the backend is left as it was. *)
Theorem check_iff_under_limit {B : Type} `{RateGateBackend B}
    (this : RateGate) (key : string) (now : Z) (b : B) :
  (result (check this key now) b = true
   ↔ Z.of_nat (length (valid (now - windowMs this) (backend_get key b)))
     < limit this) ∧
  final (check this key now) b = b ∧
  calls (check this key now) b = [CGet key].
Proof.
  unfold result, final, calls. rewrite exec_check. simpl.
  repeat split; [apply bool_decide_eq_true_1|apply bool_decide_eq_true_2].
Qed.

(* --------------------------------------------------------------------- *)
(* What the methods read: only the pruned sequence                       *)
(* --------------------------------------------------------------------- *)

(* Two backend states in which a key has the same pruned sequence give the
   same answers for that key. *)
Lemma answers_from_valid {B : Type} `{RateGateBackend B}
    (this : RateGate) (key : string) (now : Z) (b1 b2 : B) :
  valid (now - windowMs this) (backend_get key b1)
    = valid (now - windowMs this) (backend_get key b2) →
  result (check this key now) b1 = result (check this key now) b2 ∧
  result (remaining this key now) b1 = result (remaining this key now) b2 ∧
  result (resetIn this key now) b1 = result (resetIn this key now) b2 ∧
  result (hit this key now) b1 = result (hit this key now) b2.
Proof.
  intros Hv. unfold result.
  rewrite !exec_check, !exec_remaining, !exec_resetIn. cbn [fst].
  rewrite Hv. split; [done|]. split; [done|]. split; [done|].
  destruct (decide (Z.of_nat (length (valid (now - windowMs this)
                                        (backend_get key b2))) < limit this))
    as [Hlt|Hge].
  - rewrite !exec_hit_ok; [done|done|by rewrite Hv].
  - rewrite !exec_hit_fail; [|lia|rewrite Hv; lia]. cbn [fst]. by rewrite Hv.
Qed.

(** C6. `resetIn` returns 0 when the pruned sequence is empty and
    otherwise [max 0 (ceil ((oldest + windowMs - now) / 1000))] for its
    first element [oldest]; the result is always a number, never negative;
    the only backend call is the `get` and the backend is left as it was. *)
Theorem resetIn_nonneg {B : Type} `{RateGateBackend B}
    (this : RateGate) (key : string) (now : Z) (b : B) :
  exec (resetIn this key now) b =
    (Num (match valid (now - windowMs this) (backend_get key b) with
          | [] => 0
          | oldest :: _ => Z.max 0 (ceil_div (oldest + windowMs this - now) 1000)
          end),
     b, [CGet key]) ∧
  ∃ r, result (resetIn this key now) b = Num r ∧ 0 ≤ r.
Proof.
  unfold result. rewrite exec_resetIn. split; [reflexivity|].
  eexists. split; [reflexivity|].
  destruct (valid (now - windowMs this) (backend_get key b)); lia.
Qed.

(** C8. `check`, `remaining` and `resetIn` make one `get` and nothing
    else, so they call neither `set` nor `delete` and leave the backend as
    it was; so does a `hit` that throws.  A `hit` that is admitted makes
    the `get` and one `set` of the key. *)
Theorem reads_do_not_write {B : Type} `{RateGateBackend B}
    (this : RateGate) (key : string) (now : Z) (b : B) :
  (final (check this key now) b = b ∧ calls (check this key now) b = [CGet key]) ∧
  (final (remaining this key now) b = b ∧
   calls (remaining this key now) b = [CGet key]) ∧
  (final (resetIn this key now) b = b ∧
   calls (resetIn this key now) b = [CGet key]) ∧
  (∀ e, result (hit this key now) b = inl e →
        final (hit this key now) b = b ∧ calls (hit this key now) b = [CGet key]) ∧
  (result (hit this key now) b = inr tt →
   final (hit this key now) b
     = backend_set key (valid (now - windowMs this) (backend_get key b) ++ [now]) b ∧
   calls (hit this key now) b
     = [CGet key;
        CSet key (valid (now - windowMs this) (backend_get key b) ++ [now])]) ∧
  Forall (λ c, is_write c = false)
    (calls (check this key now) b ++ calls (remaining this key now) b ++
     calls (resetIn this key now) b).
Proof.
  unfold result, final, calls.
  rewrite exec_check, exec_remaining, exec_resetIn.
  cbn [fst snd].
  destruct (decide (Z.of_nat (length (valid (now - windowMs this)
                                        (backend_get key b))) < limit this))
    as [Hlt|Hge].
  - rewrite exec_hit_ok by done. simpl. repeat split; try done.
    repeat constructor.
  - rewrite exec_hit_fail by lia. simpl. repeat split; try done.
    repeat constructor.
Qed.

(* --------------------------------------------------------------------- *)
(* cleanup                                                               *)
(* --------------------------------------------------------------------- *)

Lemma exec_cleanup_key {B : Type} `{RateGateBackend B}
    (windowStart : Z) (key : string) (b : B) :
  exec (cleanup_key windowStart key) b =
  (tt,
   (let timestamps := backend_get key b in
    let validTimestamps := valid windowStart timestamps in
    if bool_decide (validTimestamps = []) then backend_delete key b
    else if bool_decide (length validTimestamps < length timestamps)%nat
         then backend_set key validTimestamps b
         else b),
   cleanup_key_calls windowStart b key).
Proof.
  unfold cleanup_key, cleanup_key_calls. simpl.
  destruct (valid windowStart (backend_get key b)) as [|ts l] eqn:Hv; simpl.
  - reflexivity.
  - by case_bool_decide.
Qed.

Lemma swept_valid (windowStart : Z) (o : option (list Z)) :
  valid windowStart (default [] (o ≫= swept windowStart))
    = valid windowStart (default [] o).
Proof.
  destruct o as [l|]; [|done]. simpl. unfold swept.
  case_bool_decide as Hv; simpl; [by rewrite Hv|apply valid_idemp].
Qed.

Lemma swept_idemp (windowStart : Z) (o : option (list Z)) :
  (o ≫= swept windowStart) ≫= swept windowStart = o ≫= swept windowStart.
Proof.
  destruct o as [l|]; [|done]. simpl. unfold swept.
  destruct (bool_decide (valid windowStart l = [])) eqn:Hv; simpl; [done|].
  by rewrite valid_idemp, Hv.
Qed.

Lemma cleanup_key_lookup (windowStart : Z) (key k : string)
    (st : MemoryBackend) :
  final (cleanup_key windowStart key) st !! k =
  if decide (k = key) then st !! key ≫= swept windowStart else st !! k.
Proof.
  unfold final. rewrite exec_cleanup_key. cbn [fst snd]. simpl.
  destruct (st !! key) as [l|] eqn:Hl; simpl.
  - unfold swept. case_bool_decide as Hv; simpl.
    + case_decide; subst; [apply lookup_delete_eq|by apply lookup_delete_ne].
    + case_bool_decide as Hlen.
      * case_decide; subst; [apply lookup_insert_eq|by apply lookup_insert_ne].
      * case_decide; subst; [|done]. rewrite Hl. f_equal. symmetry.
        apply valid_same_length. pose proof (length_valid windowStart l). lia.
  - case_decide; subst; [apply lookup_delete_eq|by apply lookup_delete_ne].
Qed.

Lemma cleanup_key_calls_ext {B : Type} `{RateGateBackend B}
    (windowStart : Z) (b1 b2 : B) (ks : list string) :
  (∀ k, k ∈ ks → backend_get k b1 = backend_get k b2) →
  flat_map (cleanup_key_calls windowStart b1) ks
    = flat_map (cleanup_key_calls windowStart b2) ks.
Proof.
  induction ks as [|k ks IH]; intros Hext; [done|]. simpl.
  rewrite IH by (intros; apply Hext; by right).
  unfold cleanup_key_calls. by rewrite (Hext k) by left.
Qed.

Lemma exec_cleanup_loop (windowStart : Z) (ks : list string) :
  NoDup ks →
  ∀ st : MemoryBackend,
    ∃ st' : MemoryBackend,
      exec (cleanup_loop windowStart ks) st
        = (tt, st', flat_map (cleanup_key_calls windowStart st) ks) ∧
      ∀ k, st' !! k =
           if decide (k ∈ ks) then st !! k ≫= swept windowStart else st !! k.
Proof.
  induction 1 as [|key ks Hnotin Hnodup IH]; intros st.
  - exists st. split; [done|]. intros k.
    case_decide as Hk; [by apply elem_of_nil in Hk|done].
  - change (cleanup_loop windowStart (key :: ks))
      with (cleanup_key windowStart key ≫= λ _, cleanup_loop windowStart ks).
    rewrite exec_bind.
    pose proof (λ k, cleanup_key_lookup windowStart key k st) as Hstep.
    unfold final in Hstep.
    pose proof (exec_cleanup_key windowStart key st) as Hcalls.
    destruct (exec (cleanup_key windowStart key) st) as [[[] st1] log1].
    injection Hcalls as _ Hlog1. cbn [fst snd] in Hstep.
    destruct (IH st1) as (st' & Hexec & Hlook). rewrite Hexec.
    exists st'. split.
    + cbn [flat_map]. rewrite Hlog1. do 2 f_equal.
      apply cleanup_key_calls_ext. intros k Hk. simpl.
      rewrite Hstep. case_decide; [subst; done|done].
    + intros k. rewrite Hlook, !Hstep.
      destruct (decide (k = key)) as [->|Hne].
      * rewrite (decide_True (P := key ∈ key :: ks)) by left.
        case_decide; [apply swept_idemp|done].
      * case_decide as Hk.
        -- by rewrite (decide_True (P := k ∈ key :: ks)) by by right.
        -- rewrite (decide_False (P := k ∈ key :: ks)); [done|].
           intros [?|?]%elem_of_cons; done.
Qed.

Lemma exec_cleanup (this : RateGate) (now : Z) (st : MemoryBackend) :
  exec (cleanup this now) st =
  (tt, omap (swept (now - windowMs this)) st,
   CKeys :: flat_map (cleanup_key_calls (now - windowMs this) st) (backend_keys st)).
Proof.
  unfold cleanup. simpl.
  destruct (exec_cleanup_loop (now - windowMs this) (map_to_list st).*1
              (NoDup_fst_map_to_list st) st) as (st' & Hexec & Hlook).
  rewrite Hexec. do 2 f_equal. f_equal.
  apply map_eq. intros k. rewrite Hlook, lookup_omap.
  case_decide as Hk; [done|].
  destruct (st !! k) as [l|] eqn:Hl; [|done].
  exfalso. apply Hk. apply list_elem_of_fmap. exists (k, l). split; [done|].
  by apply elem_of_map_to_list.
Qed.

Example cleanup_removes_expired_entries :
  let gate := new_RateGate {| opt_limit := 2; opt_windowMs := Some 100;
                              opt_category := None |} in
  let b1 := final (hit gate "user1" 10) (∅ : MemoryBackend) in
  let b2 := final (hit gate "user2" 11) b1 in
  length (backend_keys b2) = 2%nat ∧
  backend_keys (final (cleanup gate 161) b2) = [].
Proof. vm_compute. done. Qed.

(** C7. `cleanup` asks the backend for its keys (each stored key once) and
    runs the loop body on each: a key whose pruned sequence is empty is
    deleted, a key whose pruned sequence is strictly shorter than the
    stored one gets the pruned sequence written back, any other key is
    only read.  No key is created, and the pruned sequence of every key is
    the same after the sweep as before. *)
Theorem cleanup_sweeps (this : RateGate) (now : Z) (st : MemoryBackend) :
  let windowStart := now - windowMs this in
  let st' := final (cleanup this now) st in
  calls (cleanup this now) st
    = CKeys :: flat_map (cleanup_key_calls windowStart st) (backend_keys st) ∧
  NoDup (backend_keys st) ∧
  (∀ key, key ∈ backend_keys st ↔ is_Some (st !! key)) ∧
  (∀ key timestamps, st !! key = Some timestamps →
     let validTimestamps := valid windowStart timestamps in
     (validTimestamps = [] →
      cleanup_key_calls windowStart st key = [CGet key; CDelete key] ∧
      st' !! key = None) ∧
     (validTimestamps ≠ [] →
      (length validTimestamps < length timestamps)%nat →
      cleanup_key_calls windowStart st key = [CGet key; CSet key validTimestamps] ∧
      st' !! key = Some validTimestamps) ∧
     (validTimestamps ≠ [] →
      ¬ (length validTimestamps < length timestamps)%nat →
      cleanup_key_calls windowStart st key = [CGet key] ∧
      st' !! key = Some timestamps)) ∧
  (∀ key, st !! key = None → st' !! key = None) ∧
  (∀ key, valid windowStart (backend_get key st')
          = valid windowStart (backend_get key st)).
Proof.
  intros windowStart st'. subst st'. unfold calls, final.
  rewrite exec_cleanup. cbn [fst snd]. fold windowStart.
  split; [done|]. split; [apply NoDup_fst_map_to_list|]. split.
  { intros key. simpl. rewrite list_elem_of_fmap. split.
    - intros [[k l] [-> Hkl]]. apply elem_of_map_to_list in Hkl. by eexists.
    - intros [l Hl]. exists (key, l). by rewrite elem_of_map_to_list. }
  split; [|split].
  - intros key timestamps Hkey.
    unfold cleanup_key_calls. rewrite lookup_omap, Hkey. simpl. rewrite Hkey.
    simpl. unfold swept.
    pose proof (length_valid windowStart timestamps) as Hle.
    set (validTimestamps := valid windowStart timestamps) in *.
    split; [|split].
    + intros Hv. by rewrite !bool_decide_eq_true_2.
    + intros Hv Hlen.
      by rewrite !(bool_decide_eq_false_2 (validTimestamps = [])),
                 bool_decide_eq_true_2.
    + intros Hv Hlen.
      rewrite !(bool_decide_eq_false_2 (validTimestamps = [])) by done.
      rewrite bool_decide_eq_false_2 by done. split; [done|]. f_equal.
      apply valid_same_length. fold validTimestamps. lia.
  - intros key Hkey. by rewrite lookup_omap, Hkey.
  - intros key. simpl. rewrite lookup_omap. apply swept_valid.
Qed.

(** C5 (as the code has it). The prune step keeps a stored timestamp
    exactly when it is strictly greater than [now - windowMs].  A timestamp
    equal to [now - windowMs] is expired like every older one: it is not in
    the pruned sequence, removing it from the stored sequence changes no
    answer of `check`, `remaining`, `resetIn` or `hit`, and `cleanup` does
    not retain it. *)
Theorem prune_keeps_strictly_newer (this : RateGate) (now : Z) :
  let windowStart := now - windowMs this in
  (∀ ts l, ts ∈ valid windowStart l ↔ ts ∈ l ∧ ts > windowStart) ∧
  (∀ l, windowStart ∉ valid windowStart l) ∧
  (∀ old l1 l2, old ≤ windowStart →
     valid windowStart (l1 ++ old :: l2) = valid windowStart (l1 ++ l2)) ∧
  (∀ (st : MemoryBackend) key old l1 l2,
     old ≤ windowStart →
     st !! key = Some (l1 ++ old :: l2) →
     let st0 : MemoryBackend := <[key := l1 ++ l2]> st in
     result (check this key now) st = result (check this key now) st0 ∧
     result (remaining this key now) st = result (remaining this key now) st0 ∧
     result (resetIn this key now) st = result (resetIn this key now) st0 ∧
     result (hit this key now) st = result (hit this key now) st0) ∧
  (∀ (st : MemoryBackend) key ts,
     ts ∈ backend_get key (final (cleanup this now) st) → ts > windowStart).
Proof.
  intros windowStart.
  assert (Hdrop : ∀ old l1 l2, old ≤ windowStart →
            valid windowStart (l1 ++ old :: l2) = valid windowStart (l1 ++ l2)).
  { intros old l1 l2 Hold. rewrite !valid_app. f_equal.
    unfold valid. rewrite filter_cons_False by lia. done. }
  split; [|split; [|split; [|split]]].
  - intros ts l. rewrite elem_of_valid. tauto.
  - intros l Hin. apply elem_of_valid in Hin as [? _]. lia.
  - exact Hdrop.
  - intros st key old l1 l2 Hold Hkey st0.
    assert (Hv : valid (now - windowMs this) (backend_get key st)
                 = valid (now - windowMs this) (backend_get key st0)).
    { subst st0. simpl. rewrite Hkey, lookup_insert_eq. simpl.
      by apply Hdrop. }
    destruct (answers_from_valid this key now st st0 Hv) as (?&?&?&?).
    done.
  - intros st key ts Hin. unfold final in Hin.
    rewrite exec_cleanup in Hin. cbn [fst snd] in Hin. simpl in Hin.
    rewrite lookup_omap in Hin.
    destruct (st !! key) as [l|]; simpl in Hin; [|by apply elem_of_nil in Hin].
    unfold swept in Hin. case_bool_decide; simpl in Hin;
      [by apply elem_of_nil in Hin|].
    by apply elem_of_valid in Hin as [? _].
Qed.

(** C5, counterexample. limit 1, window 1000 ms, "k" holds the single
    timestamp 0 and the clock reads 1000, so the stored timestamp equals
    [now - windowMs].  It is not counted: the pruned sequence is empty,
    `check` answers true, `remaining` 1, `resetIn` 0, `hit` is admitted and
    stores only its own instant, and `cleanup` deletes the key. *)
Lemma boundary_timestamp_is_expired :
  let st : MemoryBackend := {["k" := [0]]} in
  0 = 1000 - windowMs gate_1_1000 ∧
  ¬ (0 ∈ valid (1000 - windowMs gate_1_1000) (backend_get "k" st)) ∧
  result (check gate_1_1000 "k" 1000) st = true ∧
  result (remaining gate_1_1000 "k" 1000) st = 1 ∧
  result (resetIn gate_1_1000 "k" 1000) st = Num 0 ∧
  result (hit gate_1_1000 "k" 1000) st = inr tt ∧
  backend_get "k" (final (hit gate_1_1000 "k" 1000) st) = [1000] ∧
  backend_keys (final (cleanup gate_1_1000 1000) st) = [].
Proof.
  cbv zeta. split; [reflexivity|]. split.
  - intros Hin. vm_compute in Hin. by apply elem_of_nil in Hin.
  - vm_compute. done.
Qed.

(* --------------------------------------------------------------------- *)
(* Distinct keys                                                         *)
(* --------------------------------------------------------------------- *)

(** C9. For distinct keys [k1] and [k2], any sequence of hits on [k1]
    leaves what the backend stores for [k2] as it was, and `check`,
    `remaining`, `resetIn` and `hit` on [k2] answer after those hits what
    they would have answered before; a hit on [k2] also stores the same
    sequence for [k2] in both cases. *)
Theorem distinct_keys_independent (this : RateGate) (k1 k2 : string)
    (times : list Z) (st : MemoryBackend) (now : Z) :
  k1 ≠ k2 →
  let st' := final (hits this k1 times) st in
  st' !! k2 = st !! k2 ∧
  result (check this k2 now) st' = result (check this k2 now) st ∧
  result (remaining this k2 now) st' = result (remaining this k2 now) st ∧
  result (resetIn this k2 now) st' = result (resetIn this k2 now) st ∧
  result (hit this k2 now) st' = result (hit this k2 now) st ∧
  final (hit this k2 now) st' !! k2 = final (hit this k2 now) st !! k2.
Proof.
  intros Hne st'.
  assert (Hk2 : st' !! k2 = st !! k2) by apply (hits_other_key this k1 k2 times Hne).
  assert (Hget : backend_get k2 st' = backend_get k2 st) by (simpl; by rewrite Hk2).
  destruct (answers_from_valid this k2 now st' st) as (?&?&?&?);
    [by rewrite Hget|].
  repeat split; try done.
  unfold final.
  destruct (decide (Z.of_nat (length (valid (now - windowMs this)
                                        (backend_get k2 st))) < limit this))
    as [Hlt|Hge].
  - rewrite !exec_hit_ok; [|done|by rewrite Hget]. cbn [fst snd].
    rewrite Hget. simpl. by rewrite !lookup_insert_eq.
  - rewrite !exec_hit_fail; [|lia|rewrite Hget; lia]. done.
Qed.

Lemma distinct_keys_independent_witness :
  "user1" ≠ "user2" ∧
  result (hit gate_1_1000 "user2" 12)
    (final (hits gate_1_1000 "user1" [10; 11]) (∅ : MemoryBackend))
  = result (hit gate_1_1000 "user2" 12) (∅ : MemoryBackend).
Proof.
  assert (Hne : "user1" ≠ "user2") by discriminate.
  split; [exact Hne|].
  exact (proj1 (proj2 (proj2 (proj2 (proj2
    (distinct_keys_independent gate_1_1000 "user1" "user2" [10; 11] ∅ 12 Hne)))))).
Defined.

(* --------------------------------------------------------------------- *)
(* The stored sequences stay within the limit                            *)
(* --------------------------------------------------------------------- *)

Lemma hit_bounded (this : RateGate) (key : string) (now : Z) (st : MemoryBackend) :
  bounded this st → bounded this (final (hit this key now) st).
Proof.
  intros Hb. unfold final.
  destruct (decide (Z.of_nat (length (valid (now - windowMs this)
                                        (backend_get key st))) < limit this))
    as [Hlt|Hge].
  - rewrite exec_hit_ok by done. cbn [fst snd]. intros k l. simpl.
    destruct (decide (k = key)) as [->|Hne].
    + rewrite lookup_insert_eq. intros [= <-].
      rewrite length_app. simpl in *. lia.
    + rewrite lookup_insert_ne by done. apply Hb.
  - rewrite exec_hit_fail by lia. exact Hb.
Qed.

Lemma cleanup_shrinks (this : RateGate) (now : Z) (st : MemoryBackend)
    (key : string) (kept : list Z) :
  final (cleanup this now) st !! key = Some kept →
  ∃ timestamps, st !! key = Some timestamps ∧
                kept = valid (now - windowMs this) timestamps ∧
                (length kept ≤ length timestamps)%nat.
Proof.
  unfold final. rewrite exec_cleanup. cbn [fst snd]. rewrite lookup_omap.
  destruct (st !! key) as [l|]; simpl; [|done].
  unfold swept. case_bool_decide; [done|]. intros [= <-].
  exists l. repeat split. apply length_valid.
Qed.

Lemma after_bounded (this : RateGate) (c : gate_call) (st : MemoryBackend) :
  bounded this st → bounded this (after this c st).
Proof.
  intros Hb. destruct c as [key now|key now|key now|key now|now]; simpl.
  - unfold final. by rewrite exec_check.
  - by apply hit_bounded.
  - unfold final. by rewrite exec_resetIn.
  - unfold final. by rewrite exec_remaining.
  - intros key kept Hkept.
    apply cleanup_shrinks in Hkept as (l & Hl & _ & Hlen).
    apply Hb in Hl. lia.
Qed.

(** C10. Every public method preserves the invariant that each stored
    sequence has at most [limit] entries (for any limit, in particular a
    positive one), so it holds of every MemoryBackend that only the gate
    has written to.  An admitted hit stores the pruned sequence, which has
    strictly fewer than [limit] entries, followed by one new timestamp;
    whatever `cleanup` leaves under a key is the pruned stored sequence,
    not longer than the stored one. *)
Theorem stored_sequences_bounded (this : RateGate) :
  (∀ c st, bounded this st → bounded this (after this c st)) ∧
  (∀ cs, bounded this (after_all this cs)) ∧
  (∀ key now (st : MemoryBackend),
     result (hit this key now) st = inr tt →
     let validTimestamps := valid (now - windowMs this) (backend_get key st) in
     final (hit this key now) st = <[key := validTimestamps ++ [now]]> st ∧
     Z.of_nat (length validTimestamps) < limit this ∧
     Z.of_nat (length (validTimestamps ++ [now])) ≤ limit this) ∧
  (∀ now (st : MemoryBackend) key kept,
     final (cleanup this now) st !! key = Some kept →
     ∃ timestamps, st !! key = Some timestamps ∧
                   kept = valid (now - windowMs this) timestamps ∧
                   (length kept ≤ length timestamps)%nat).
Proof.
  split; [|split; [|split]].
  - intros c st. apply after_bounded.
  - intros cs. unfold after_all.
    assert (Hgen : ∀ st, bounded this st →
                         bounded this (foldl (λ st c, after this c st) st cs)).
    { induction cs as [|c cs IH]; intros st Hb; [done|].
      simpl. apply IH. by apply after_bounded. }
    apply Hgen. intros key l Hl. by rewrite lookup_empty in Hl.
  - intros key now st. unfold result, final.
    destruct (decide (Z.of_nat (length (valid (now - windowMs this)
                                          (backend_get key st))) < limit this))
      as [Hlt|Hge].
    + rewrite exec_hit_ok by done. cbn [fst snd]. intros _.
      split; [done|]. split; [done|]. rewrite length_app. simpl in *. lia.
    + rewrite exec_hit_fail by lia. done.
  - intros now st key kept. apply cleanup_shrinks.
Qed.

(* ===================================================================== *)
(* Further properties of the code                                        *)
(* ===================================================================== *)

(* --------------------------------------------------------------------- *)
(* More on the prune step                                                *)
(* --------------------------------------------------------------------- *)

Lemma valid_expired (windowStart : Z) (l : list Z) :
  Forall (λ ts, ts ≤ windowStart) l → valid windowStart l = [].
Proof.
  unfold valid. induction 1 as [|ts l Hts _ IH]; [done|].
  by rewrite filter_cons_False by lia.
Qed.

(* pruning for a later instant subsumes pruning for an earlier one *)
Lemma valid_valid_le (ws ws' : Z) (l : list Z) :
  ws ≤ ws' → valid ws' (valid ws l) = valid ws' l.
Proof.
  intros Hle. unfold valid. induction l as [|ts l IH]; [done|].
  rewrite (filter_cons (λ ts, ts > ws)). case_decide as Hts.
  - rewrite !filter_cons. case_decide; by rewrite IH.
  - rewrite IH. by rewrite (filter_cons_False (λ ts, ts > ws')) by lia.
Qed.

Lemma length_valid_mono (ws ws' : Z) (l : list Z) :
  ws ≤ ws' → (length (valid ws' l) ≤ length (valid ws l))%nat.
Proof.
  intros Hle. rewrite <- (valid_valid_le ws ws' l Hle). apply length_valid.
Qed.

(* once the head of the pruned sequence has expired, the count has dropped *)
Lemma length_valid_head_expired (ws ws' oldest : Z) (rest l : list Z) :
  valid ws l = oldest :: rest → ws ≤ ws' → oldest ≤ ws' →
  (length (valid ws' l) < length (valid ws l))%nat.
Proof.
  intros Hv Hle Hold. rewrite <- (valid_valid_le ws ws' l Hle), Hv.
  unfold valid at 1. rewrite filter_cons_False by lia.
  pose proof (length_valid ws' rest). unfold valid in *. simpl. lia.
Qed.

Lemma valid_sorted (windowStart : Z) (l : list Z) :
  StronglySorted Z.le l → StronglySorted Z.le (valid windowStart l).
Proof.
  unfold valid. induction 1 as [|ts l Hl IH Hts]; [constructor|].
  rewrite filter_cons. case_decide; [|done].
  constructor; [done|].
  apply Forall_forall. intros t [_ Ht]%list_elem_of_filter.
  by apply (proj1 (Forall_forall _ _) Hts).
Qed.


(* --------------------------------------------------------------------- *)
(* MemoryBackend                                                         *)
(* --------------------------------------------------------------------- *)

(** X1. MemoryBackend, reading back: `get` of a key that was never set,
    or was deleted, is the empty sequence; after `set` a key reads the
    sequence that was stored; `set` and `delete` of one key do not change
    what another key reads; a second `set` overwrites the first. *)
Theorem memory_get_after_write (st : MemoryBackend) (key k : string)
    (timestamps older : list Z) :
  result (get key) (∅ : MemoryBackend) = [] ∧
  result (get key) (final (set key timestamps) st) = timestamps ∧
  result (get key) (final (del key) st) = [] ∧
  final (set key timestamps) (final (set key older) st)
    = final (set key timestamps) st ∧
  (k ≠ key →
   result (get k) (final (set key timestamps) st) = result (get k) st ∧
   result (get k) (final (del key) st) = result (get k) st).
Proof.
  unfold result, final. simpl.
  rewrite lookup_insert_eq, lookup_delete_eq, insert_insert_eq.
  repeat split; try done.
  - by rewrite lookup_insert_ne.
  - by rewrite lookup_delete_ne.
Qed.

(** X2. MemoryBackend, `keys`: it lists every stored key exactly once; a
    new backend has none; `set` adds its key (also when the sequence stored
    is empty) and `delete` removes its key, leaving the other keys. *)
Theorem memory_keys (st : MemoryBackend) (key k : string) (timestamps : list Z) :
  result keys (∅ : MemoryBackend) = [] ∧
  NoDup (result keys st) ∧
  (k ∈ result keys st ↔ is_Some (st !! k)) ∧
  (k ∈ result keys (final (set key timestamps) st) ↔ k = key ∨ k ∈ result keys st) ∧
  (k ∈ result keys (final (del key) st) ↔ k ≠ key ∧ k ∈ result keys st).
Proof.
  assert (Hkeys : ∀ (m : MemoryBackend) x, x ∈ result keys m ↔ is_Some (m !! x)).
  { intros m x. unfold result. simpl. rewrite list_elem_of_fmap. split.
    - intros [[x' l] [-> Hx]]. apply elem_of_map_to_list in Hx. by eexists.
    - intros [l Hl]. exists (x, l). by rewrite elem_of_map_to_list. }
  split; [unfold result; simpl; by rewrite map_to_list_empty|].
  split; [apply NoDup_fst_map_to_list|].
  split; [apply Hkeys|]. rewrite !Hkeys. unfold final. simpl. split.
  - destruct (decide (k = key)) as [->|Hne].
    + rewrite lookup_insert_eq. split; [by left|by eexists].
    + rewrite lookup_insert_ne by done. split; [by right|by intros [?|?]].
  - destruct (decide (k = key)) as [->|Hne].
    + rewrite lookup_delete_eq. split; [by intros [? ?]|by intros [? _]].
    + rewrite lookup_delete_ne by done. tauto.
Qed.

(* --------------------------------------------------------------------- *)
(* How the answers of the methods relate                                 *)
(* --------------------------------------------------------------------- *)

(** X3. At one instant and on one backend state, `check`, `hit` and
    `remaining` agree: `check` is true exactly when `hit` would be
    admitted, exactly when `remaining` is positive; `check` is false
    exactly when `hit` would throw, exactly when `remaining` is 0. *)
Theorem check_hit_remaining_agree {B : Type} `{RateGateBackend B}
    (this : RateGate) (key : string) (now : Z) (b : B) :
  (result (check this key now) b = true ↔ result (hit this key now) b = inr tt) ∧
  (result (check this key now) b = true ↔ 0 < result (remaining this key now) b) ∧
  (result (check this key now) b = false
   ↔ ∃ e, result (hit this key now) b = inl e) ∧
  (result (check this key now) b = false ↔ result (remaining this key now) b = 0).
Proof.
  unfold result. rewrite exec_check, exec_remaining. cbn [fst].
  destruct (decide (Z.of_nat (length (valid (now - windowMs this)
                                        (backend_get key b))) < limit this))
    as [Hlt|Hge].
  - rewrite exec_hit_ok by done. cbn [fst].
    rewrite bool_decide_eq_true_2 by done.
    repeat split; try done; try lia.
    intros [e ?]. done.
  - rewrite exec_hit_fail by lia. cbn [fst].
    rewrite bool_decide_eq_false_2 by done.
    repeat split; try done; try lia.
    intros _. eauto.
Qed.

(** X4. `remaining` is never negative and never above the limit, and as
    long as the pruned sequence has at most [limit] entries, `remaining`
    plus the number of valid timestamps is the limit. *)
Theorem remaining_bounds {B : Type} `{RateGateBackend B}
    (this : RateGate) (key : string) (now : Z) (b : B) :
  let count := Z.of_nat (length (valid (now - windowMs this) (backend_get key b))) in
  0 ≤ result (remaining this key now) b ≤ Z.max 0 (limit this) ∧
  (count ≤ limit this → result (remaining this key now) b + count = limit this) ∧
  (limit this ≤ count → result (remaining this key now) b = 0).
Proof.
  intros count. unfold result. rewrite exec_remaining. cbn [fst].
  fold count. lia.
Qed.

(** X5. A key whose stored timestamps have all expired (each is at most
    [now - windowMs]; a key with nothing stored is one) looks new:
    `check` is true iff the limit is positive, `remaining` is the limit (0
    for a negative one), `resetIn` is 0, and with a positive limit `hit` is
    admitted and stores only its own instant, dropping the expired ones. *)
Theorem expired_key_is_fresh {B : Type} `{RateGateBackend B}
    (this : RateGate) (key : string) (now : Z) (b : B) :
  Forall (λ ts, ts ≤ now - windowMs this) (backend_get key b) →
  result (check this key now) b = bool_decide (0 < limit this) ∧
  result (remaining this key now) b = Z.max 0 (limit this) ∧
  result (resetIn this key now) b = Num 0 ∧
  (0 < limit this →
   exec (hit this key now) b
     = (inr tt, backend_set key [now] b, [CGet key; CSet key [now]])).
Proof.
  intros Hexp. apply valid_expired in Hexp. unfold result.
  rewrite exec_check, exec_remaining, exec_resetIn, Hexp. cbn [fst length].
  repeat split; [f_equal; lia|].
  intros Hpos. rewrite exec_hit_ok; rewrite Hexp; [done|simpl; lia].
Qed.

Lemma expired_key_is_fresh_witness :
  Forall (λ ts, ts ≤ 1200 - windowMs gate_2_1000)
         (backend_get "user1" ({["user1" := [5; 200]]} : MemoryBackend)) ∧
  result (check gate_2_1000 "user1" 1200)
         ({["user1" := [5; 200]]} : MemoryBackend) = true.
Proof.
  assert (Hexp : Forall (λ ts, ts ≤ 1200 - windowMs gate_2_1000)
                   (backend_get "user1" ({["user1" := [5; 200]]} : MemoryBackend))).
  { vm_compute. repeat constructor; discriminate. }
  split; [exact Hexp|].
  exact (proj1 (expired_key_is_fresh gate_2_1000 "user1" 1200
                  ({["user1" := [5; 200]]} : MemoryBackend) Hexp)).
Defined.

(** X6. `resetIn` is 0 exactly when the key has no valid timestamp.  When
    it has one, the result is [ceil ((oldest + windowMs - now) / 1000)] for
    the first valid timestamp and is at least 1: the clamp to 0 never
    takes effect. *)
Theorem resetIn_zero_iff_idle {B : Type} `{RateGateBackend B}
    (this : RateGate) (key : string) (now : Z) (b : B) :
  let validTimestamps := valid (now - windowMs this) (backend_get key b) in
  (result (resetIn this key now) b = Num 0 ↔ validTimestamps = []) ∧
  (∀ oldest rest, validTimestamps = oldest :: rest →
     result (resetIn this key now) b
       = Num (ceil_div (oldest + windowMs this - now) 1000) ∧
     1 ≤ ceil_div (oldest + windowMs this - now) 1000).
Proof.
  intros validTimestamps. unfold result. rewrite exec_resetIn. cbn [fst].
  fold validTimestamps.
  assert (Hpos : ∀ oldest rest, validTimestamps = oldest :: rest →
                 1 ≤ ceil_div (oldest + windowMs this - now) 1000).
  { intros oldest rest Hv.
    assert (Hin : oldest ∈ validTimestamps) by (rewrite Hv; left).
    apply elem_of_valid in Hin as [? _].
    pose proof (ceil_div_pos (oldest + windowMs this - now) 1000). lia. }
  split.
  - destruct validTimestamps as [|oldest rest] eqn:Hv; [done|].
    specialize (Hpos oldest rest eq_refl).
    split; [|done]. intros [= Hz]. lia.
  - intros oldest rest Hv. specialize (Hpos oldest rest Hv). rewrite Hv.
    split; [f_equal; lia|done].
Qed.



(* --------------------------------------------------------------------- *)
(* Waiting                                                               *)
(* --------------------------------------------------------------------- *)

(* On an unchanged backend state the count of valid timestamps can only
   go down as the clock advances. *)
Lemma count_antitone {B : Type} `{RateGateBackend B}
    (this : RateGate) (key : string) (now later : Z) (b : B) :
  now ≤ later →
  (length (valid (later - windowMs this) (backend_get key b))
   ≤ length (valid (now - windowMs this) (backend_get key b)))%nat.
Proof. intros Hle. apply length_valid_mono. lia. Qed.

(* Waiting out the delay computed from the oldest valid timestamp frees a
   slot, when the stored sequence is within the limit. *)
Lemma slot_after_delay {B : Type} `{RateGateBackend B}
    (this : RateGate) (key : string) (now later : Z) (b : B) :
  0 < limit this →
  Z.of_nat (length (backend_get key b)) ≤ limit this →
  now ≤ later →
  (∀ oldest rest,
     valid (now - windowMs this) (backend_get key b) = oldest :: rest →
     now + 1000 * ceil_div (oldest + windowMs this - now) 1000 ≤ later) →
  Z.of_nat (length (valid (later - windowMs this) (backend_get key b)))
    < limit this.
Proof.
  intros Hpos Hbounded Hle Hwait.
  destruct (valid (now - windowMs this) (backend_get key b))
    as [|oldest rest] eqn:Hv.
  - pose proof (count_antitone this key now later b Hle) as Hc.
    rewrite Hv in Hc. simpl in Hc. lia.
  - specialize (Hwait oldest rest eq_refl).
    pose proof (ceil_div_spec (oldest + windowMs this - now) 1000 ltac:(lia)).
    pose proof (length_valid_head_expired (now - windowMs this)
                  (later - windowMs this) oldest rest (backend_get key b) Hv
                  ltac:(lia) ltac:(lia)) as Hdrop.
    pose proof (length_valid (now - windowMs this) (backend_get key b)). lia.
Qed.

(** X8. Retrying after the delay of the error succeeds.  With a positive
    limit and a stored sequence of at most [limit] entries, if `hit`
    throws at [now] with resetIn [r] and nothing is recorded for the key in
    between, then at any instant at least [r] seconds later `check` is true
    and `hit` is admitted. *)
Theorem retry_after_error_admitted {B : Type} `{RateGateBackend B}
    (this : RateGate) (key : string) (now later : Z) (b : B)
    (e : RateLimitError) (r : Z) :
  0 < limit this →
  Z.of_nat (length (backend_get key b)) ≤ limit this →
  result (hit this key now) b = inl e →
  resetIn_of e = Num r →
  now + 1000 * r ≤ later →
  result (check this key later) b = true ∧
  result (hit this key later) b = inr tt.
Proof.
  intros Hpos Hbounded He Hr Hlater. unfold result in *.
  destruct (decide (Z.of_nat (length (valid (now - windowMs this)
                                        (backend_get key b))) < limit this))
    as [Hlt|Hge]; [rewrite exec_hit_ok in He by done; done|].
  destruct (exec_hit_fail_oldest this key now b Hpos)
    as (oldest & rest & Hv & Hex); [lia|].
  rewrite Hex in He. injection He as <-. simpl in Hr. injection Hr as <-.
  assert (Hin : oldest ∈ valid (now - windowMs this) (backend_get key b))
    by (rewrite Hv; left).
  apply elem_of_valid in Hin as [Hgt _].
  pose proof (ceil_div_pos (oldest + windowMs this - now) 1000
                ltac:(lia) ltac:(lia)) as Hrpos.
  assert (Hfree : Z.of_nat (length (valid (later - windowMs this)
                                      (backend_get key b))) < limit this).
  { apply (slot_after_delay this key now later b); [done|done|lia|].
    intros oldest' rest' Hv'. rewrite Hv in Hv'. by injection Hv' as <- <-. }
  rewrite exec_check, exec_hit_ok by done. cbn [fst].
  by rewrite bool_decide_eq_true_2.
Qed.

Lemma retry_after_error_admitted_witness :
  result (hit gate_2_1000 "user1" 1007)
         ({["user1" := [5; 6]]} : MemoryBackend) = inr tt.
Proof.
  assert (Hpos : 0 < limit gate_2_1000) by (simpl; lia).
  assert (Hb : Z.of_nat (length (backend_get "user1"
                 ({["user1" := [5; 6]]} : MemoryBackend))) ≤ limit gate_2_1000)
    by (vm_compute; discriminate).
  assert (He : result (hit gate_2_1000 "user1" 7)
                 ({["user1" := [5; 6]]} : MemoryBackend)
               = inl (new_RateLimitError
                        "Rate limit exceeded for test. Try again in 1s."
                        (Num 1) 2 1000))
    by (vm_compute; reflexivity).
  assert (Hr : resetIn_of (new_RateLimitError
                 "Rate limit exceeded for test. Try again in 1s." (Num 1) 2 1000)
               = Num 1) by reflexivity.
  assert (Hl : 7 + 1000 * 1 ≤ 1007) by lia.
  exact (proj2 (retry_after_error_admitted gate_2_1000 "user1" 7 1007
                  ({["user1" := [5; 6]]} : MemoryBackend) _ 1 Hpos Hb He Hr Hl)).
Defined.

(** X9. Waiting for what `resetIn` returns is enough.  With a positive
    limit and a stored sequence of at most [limit] entries, if `resetIn`
    returns [r] at [now] and nothing is recorded for the key in between,
    then at any instant at least [r] seconds later `check` is true and
    `hit` is admitted. *)
Theorem wait_resetIn_then_admitted {B : Type} `{RateGateBackend B}
    (this : RateGate) (key : string) (now later : Z) (b : B) (r : Z) :
  0 < limit this →
  Z.of_nat (length (backend_get key b)) ≤ limit this →
  result (resetIn this key now) b = Num r →
  now + 1000 * r ≤ later →
  result (check this key later) b = true ∧
  result (hit this key later) b = inr tt.
Proof.
  intros Hpos Hbounded Hr Hlater. unfold result in *.
  rewrite exec_resetIn in Hr. cbn [fst] in Hr. injection Hr as Hr.
  assert (Hfree : Z.of_nat (length (valid (later - windowMs this)
                                      (backend_get key b))) < limit this).
  { apply (slot_after_delay this key now later b); [done|done| |].
    - destruct (valid (now - windowMs this) (backend_get key b)); lia.
    - intros oldest rest Hv. rewrite Hv in Hr. lia. }
  rewrite exec_check, exec_hit_ok by done. cbn [fst].
  by rewrite bool_decide_eq_true_2.
Qed.

Lemma wait_resetIn_then_admitted_witness :
  result (resetIn gate_1_1000 "user1" 500)
         ({["user1" := [10]]} : MemoryBackend) = Num 1 ∧
  result (check gate_1_1000 "user1" 1500)
         ({["user1" := [10]]} : MemoryBackend) = true.
Proof.
  assert (Hpos : 0 < limit gate_1_1000) by (simpl; lia).
  assert (Hb : Z.of_nat (length (backend_get "user1"
                 ({["user1" := [10]]} : MemoryBackend))) ≤ limit gate_1_1000)
    by (vm_compute; discriminate).
  assert (Hr : result (resetIn gate_1_1000 "user1" 500)
                 ({["user1" := [10]]} : MemoryBackend) = Num 1)
    by (vm_compute; reflexivity).
  assert (Hl : 500 + 1000 * 1 ≤ 1500) by lia.
  split; [exact Hr|].
  exact (proj1 (wait_resetIn_then_admitted gate_1_1000 "user1" 500 1500
                  ({["user1" := [10]]} : MemoryBackend) 1 Hpos Hb Hr Hl)).
Defined.

(** X10. On an unchanged backend state, time only frees slots: at a later
    instant `remaining` is at least what it was, a `check` that was true
    stays true and a `hit` that would have been admitted still is. *)
Theorem later_is_no_worse {B : Type} `{RateGateBackend B}
    (this : RateGate) (key : string) (now later : Z) (b : B) :
  now ≤ later →
  result (remaining this key now) b ≤ result (remaining this key later) b ∧
  (result (check this key now) b = true → result (check this key later) b = true) ∧
  (result (hit this key now) b = inr tt → result (hit this key later) b = inr tt).
Proof.
  intros Hle. pose proof (count_antitone this key now later b Hle) as Hc.
  unfold result. rewrite !exec_check, !exec_remaining. cbn [fst].
  split; [lia|]. split.
  - intros Ht%bool_decide_eq_true_1. apply bool_decide_eq_true_2. lia.
  - destruct (decide (Z.of_nat (length (valid (now - windowMs this)
                                          (backend_get key b))) < limit this))
      as [Hlt|Hge].
    + intros _. rewrite exec_hit_ok by lia. done.
    + rewrite exec_hit_fail by lia. done.
Qed.

Lemma later_is_no_worse_witness :
  7 ≤ 1006 ∧
  result (remaining gate_2_1000 "user1" 7) ({["user1" := [5; 6]]} : MemoryBackend)
  ≤ result (remaining gate_2_1000 "user1" 1006)
      ({["user1" := [5; 6]]} : MemoryBackend).
Proof.
  assert (Hle : 7 ≤ 1006) by lia.
  split; [exact Hle|].
  exact (proj1 (later_is_no_worse gate_2_1000 "user1" 7 1006
                  ({["user1" := [5; 6]]} : MemoryBackend) Hle)).
Defined.

(** X11. An admitted hit uses up exactly one slot for as long as its
    instant stays in the window: on MemoryBackend, if `hit` is admitted at
    [now], then at every instant from [now] up to (not including)
    [now + windowMs], `remaining` after the hit is one less than it would
    have been without it. *)
Theorem admitted_hit_takes_one_slot (this : RateGate) (key : string)
    (now later : Z) (st : MemoryBackend) :
  result (hit this key now) st = inr tt →
  now ≤ later < now + windowMs this →
  result (remaining this key later) (final (hit this key now) st)
    = result (remaining this key later) st - 1.
Proof.
  unfold result, final. intros Hok Hlater.
  destruct (decide (Z.of_nat (length (valid (now - windowMs this)
                                        (backend_get key st))) < limit this))
    as [Hlt|Hge]; [|rewrite exec_hit_fail in Hok by lia; done].
  rewrite exec_hit_ok by done. rewrite !exec_remaining. cbn [fst snd].
  pose proof (count_antitone this key now later st ltac:(lia)) as Hc.
  replace (backend_get key (backend_set key
             (valid (now - windowMs this) (backend_get key st) ++ [now]) st))
    with (valid (now - windowMs this) (backend_get key st) ++ [now])
    by (simpl; by rewrite lookup_insert_eq).
  rewrite valid_app, valid_valid_le by lia.
  rewrite (valid_all _ [now]) by (repeat constructor; lia).
  rewrite length_app. simpl in *. lia.
Qed.

Lemma admitted_hit_takes_one_slot_witness :
  result (remaining gate_3_1000 "user1" 900)
         (final (hit gate_3_1000 "user1" 10) (∅ : MemoryBackend)) = 3 - 1.
Proof.
  assert (Hok : result (hit gate_3_1000 "user1" 10) (∅ : MemoryBackend) = inr tt)
    by (vm_compute; reflexivity).
  assert (Hl : 10 ≤ 900 < 10 + windowMs gate_3_1000) by (simpl; lia).
  exact (admitted_hit_takes_one_slot gate_3_1000 "user1" 10 900 ∅ Hok Hl).
Defined.

(* --------------------------------------------------------------------- *)
(* More on cleanup                                                       *)
(* --------------------------------------------------------------------- *)

Lemma swept_valid_le (ws ws' : Z) (o : option (list Z)) :
  ws ≤ ws' →
  valid ws' (default [] (o ≫= swept ws)) = valid ws' (default [] o).
Proof.
  intros Hle. destruct o as [l|]; [|done]. simpl. unfold swept.
  rewrite <- (valid_valid_le ws ws' l Hle).
  case_bool_decide as Hv; simpl; [by rewrite Hv|done].
Qed.

Lemma swept_swept_le (ws ws' : Z) (o : option (list Z)) :
  ws ≤ ws' → (o ≫= swept ws) ≫= swept ws' = o ≫= swept ws'.
Proof.
  intros Hle. destruct o as [l|]; [|done]. simpl. unfold swept at 2 3.
  rewrite <- (valid_valid_le ws ws' l Hle). unfold swept.
  destruct (bool_decide (valid ws l = [])) eqn:Hv; simpl; [|done].
  apply bool_decide_eq_true_1 in Hv. by rewrite Hv.
Qed.

Lemma Forall_flat_map_calls {B : Type} `{RateGateBackend B}
    (P : call → Prop) (windowStart : Z) (b : B) (ks : list string) :
  (∀ k, k ∈ ks → Forall P (cleanup_key_calls windowStart b k)) →
  Forall P (flat_map (cleanup_key_calls windowStart b) ks).
Proof.
  induction ks as [|k ks IH]; intros Hall; [constructor|].
  cbn [flat_map]. apply Forall_app. split; [apply Hall; left|].
  apply IH. intros k' Hk'. apply Hall. by right.
Qed.

(** X12. `cleanup` cannot be observed by later calls: for every key and
    every instant not before the sweep, `check`, `remaining`, `resetIn` and
    the outcome of `hit` are the same on the swept MemoryBackend as on the
    unswept one. *)
Theorem cleanup_is_invisible (this : RateGate) (key : string) (now later : Z)
    (st : MemoryBackend) :
  now ≤ later →
  let st' := final (cleanup this now) st in
  result (check this key later) st' = result (check this key later) st ∧
  result (remaining this key later) st' = result (remaining this key later) st ∧
  result (resetIn this key later) st' = result (resetIn this key later) st ∧
  result (hit this key later) st' = result (hit this key later) st.
Proof.
  intros Hle st'. apply answers_from_valid.
  subst st'. unfold final. rewrite exec_cleanup. cbn [fst snd]. simpl.
  rewrite lookup_omap. apply swept_valid_le. lia.
Qed.

Lemma cleanup_is_invisible_witness :
  10 ≤ 20 ∧
  result (remaining gate_2_1000 "user1" 20)
         (final (cleanup gate_2_1000 10) ({["user1" := [5; 6]]} : MemoryBackend))
  = result (remaining gate_2_1000 "user1" 20)
           ({["user1" := [5; 6]]} : MemoryBackend).
Proof.
  assert (Hle : 10 ≤ 20) by lia.
  split; [exact Hle|].
  exact (proj1 (proj2 (cleanup_is_invisible gate_2_1000 "user1" 10 20
                         ({["user1" := [5; 6]]} : MemoryBackend) Hle))).
Defined.

(** X13. Sweeps compose: on MemoryBackend a `cleanup` followed by a
    `cleanup` at the same or a later instant leaves what the later one
    alone would leave; and a `cleanup` repeated at the same instant makes
    no `set` and no `delete`. *)
Theorem cleanup_twice (this : RateGate) (now later : Z) (st : MemoryBackend) :
  now ≤ later →
  final (cleanup this later) (final (cleanup this now) st)
    = final (cleanup this later) st ∧
  final (cleanup this now) (final (cleanup this now) st)
    = final (cleanup this now) st ∧
  Forall (λ c, is_write c = false)
         (calls (cleanup this now) (final (cleanup this now) st)).
Proof.
  intros Hle. unfold final, calls. rewrite !exec_cleanup. cbn [fst snd].
  assert (Hcomp : ∀ ws ws', ws ≤ ws' →
            omap (swept ws') (omap (swept ws) st) = omap (swept ws') st).
  { intros ws ws' Hws. apply map_eq. intros k. rewrite !lookup_omap.
    by apply swept_swept_le. }
  split; [apply Hcomp; lia|]. split; [by apply Hcomp|].
  constructor; [done|]. apply Forall_flat_map_calls. intros k Hk.
  apply list_elem_of_fmap in Hk as [[k' kept] [-> Hkept]].
  apply elem_of_map_to_list in Hkept. cbn [fst].
  assert (Hget : backend_get k' (omap (swept (now - windowMs this)) st) = kept)
    by (simpl; by rewrite Hkept).
  rewrite lookup_omap in Hkept.
  destruct (st !! k') as [l|]; simpl in Hkept; [|done].
  unfold swept in Hkept. case_bool_decide as Hv; [done|].
  injection Hkept as <-.
  unfold cleanup_key_calls. rewrite Hget, valid_idemp.
  rewrite bool_decide_eq_false_2 by done.
  rewrite bool_decide_eq_false_2 by lia. repeat constructor.
Qed.

Lemma cleanup_twice_witness :
  10 ≤ 1006 ∧
  final (cleanup gate_2_1000 1006)
        (final (cleanup gate_2_1000 10) ({["user1" := [5; 6]]} : MemoryBackend))
  = final (cleanup gate_2_1000 1006) ({["user1" := [5; 6]]} : MemoryBackend).
Proof.
  assert (Hle : 10 ≤ 1006) by lia.
  split; [exact Hle|].
  exact (proj1 (cleanup_twice gate_2_1000 10 1006
                  ({["user1" := [5; 6]]} : MemoryBackend) Hle)).
Defined.

(** X14. After `cleanup` the MemoryBackend lists exactly the keys that
    still have a valid timestamp, each with a non-empty stored sequence;
    so a backend in which everything has expired ends up with no keys. *)
Theorem cleanup_keeps_live_keys (this : RateGate) (now : Z) (st : MemoryBackend) :
  let windowStart := now - windowMs this in
  let st' := final (cleanup this now) st in
  (∀ key, key ∈ backend_keys st' ↔ valid windowStart (backend_get key st) ≠ []) ∧
  (∀ key kept, st' !! key = Some kept → kept ≠ []) ∧
  ((∀ key, valid windowStart (backend_get key st) = []) → backend_keys st' = []).
Proof.
  intros windowStart st'.
  assert (Hlook : ∀ key, st' !! key = st !! key ≫= swept windowStart).
  { intros key. subst st'. unfold final. rewrite exec_cleanup. cbn [fst snd].
    by rewrite lookup_omap. }
  assert (Hkeys : ∀ key, key ∈ backend_keys st'
                         ↔ valid windowStart (backend_get key st) ≠ []).
  { intros key. simpl. rewrite list_elem_of_fmap. split.
    - intros [[k l] [-> Hkl]]. apply elem_of_map_to_list in Hkl.
      rewrite Hlook in Hkl. simpl in *.
      destruct (st !! k) as [l0|]; simpl in *; [|done].
      unfold swept in Hkl. by case_bool_decide.
    - intros Hv. exists (key, valid windowStart (default [] (st !! key))).
      split; [done|]. apply elem_of_map_to_list. rewrite Hlook.
      destruct (st !! key) as [l0|]; simpl in *; [|done].
      unfold swept. by rewrite bool_decide_eq_false_2. }
  split; [exact Hkeys|]. split.
  - intros key kept. rewrite Hlook.
    destruct (st !! key) as [l0|]; simpl; [|done].
    unfold swept. case_bool_decide; [done|]. by intros [= <-].
  - intros Hall. apply elem_of_nil_inv. intros k Hk%Hkeys. apply Hk, Hall.
Qed.

(* --------------------------------------------------------------------- *)
(* The sliding window, under a clock that does not go back               *)
(* --------------------------------------------------------------------- *)

Section SlidingWindow.
Context (this : RateGate) (key : string).

(* While the clock does not go back, the stored sequence and the list of
   all admitted instants have the same valid part at every later instant,
   and the stored sequence stays within the limit. *)
Lemma hits_track (times : list Z) :
  ∀ (st : MemoryBackend) (earlier : list Z) (lo : Z),
    StronglySorted Z.le times →
    Forall (λ t, lo ≤ t) times →
    (∀ ws, lo - windowMs this ≤ ws →
           valid ws (backend_get key st) = valid ws earlier) →
    Z.of_nat (length (backend_get key st)) ≤ Z.max 0 (limit this) →
    ∀ now, lo ≤ now → Forall (λ t, t ≤ now) times →
      (∀ ws, now - windowMs this ≤ ws →
         valid ws (backend_get key (final (hits this key times) st))
         = valid ws (earlier ++ admitted_times times
                                  (result (hits this key times) st))) ∧
      Z.of_nat (length (backend_get key (final (hits this key times) st)))
        ≤ Z.max 0 (limit this).
Proof.
  unfold result, final.
  induction times as [|t rest IH];
    intros st earlier lo Hsorted Hlo Hinv Hbounded now Hnow Hpast.
  - cbn [hits exec fst snd admitted_times]. rewrite app_nil_r. split; [|done].
    intros ws Hws. apply Hinv. lia.
  - apply StronglySorted_cons in Hsorted as [Hrest Hsorted].
    apply Forall_cons in Hlo as [Hlot _].
    apply Forall_cons in Hpast as [Htnow Hpast].
    rewrite exec_hits_cons.
    destruct (decide (Z.of_nat (length (valid (t - windowMs this)
                                          (backend_get key st))) < limit this))
      as [Hlt|Hge].
    + rewrite exec_hit_ok by done.
      set (st1 := backend_set key
                    (valid (t - windowMs this) (backend_get key st) ++ [t]) st).
      assert (Hget1 : backend_get key st1
                      = valid (t - windowMs this) (backend_get key st) ++ [t])
        by (subst st1; simpl; by rewrite lookup_insert_eq).
      destruct (IH st1 (earlier ++ [t]) t Hsorted Hrest) with (now := now)
        as [IHv IHb]; [| |done|done|].
      * intros ws Hws. rewrite Hget1, !valid_app, valid_valid_le by lia.
        f_equal. apply Hinv. lia.
      * rewrite Hget1, length_app. change (length [t]) with 1%nat. lia.
      * destruct (exec (hits this key rest) st1) as [[rs b2] log2].
        cbn [fst snd admitted_times] in *.
        rewrite (decide_True (P := admitted (inr ()))) by done.
        split; [|done]. intros ws Hws.
        rewrite IHv by done. by rewrite <- app_assoc.
    + rewrite exec_hit_fail by lia.
      destruct (IH st earlier t Hsorted Hrest) with (now := now)
        as [IHv IHb]; [|done|done|done|].
      * intros ws Hws. apply Hinv. lia.
      * destruct (exec (hits this key rest) st) as [[rs b2] log2].
        cbn [fst snd admitted_times] in *.
        rewrite (decide_False (P := admitted (inl _))) by done.
        split; done.
Qed.
End SlidingWindow.

(** X15. The limiter is an exact sliding window.  Take hits on a key with
    nothing stored, at instants that do not go back, on MemoryBackend, and
    an instant [now] not before them.  The number of admitted hits whose
    instant is later than [now - windowMs] never exceeds the limit; a hit
    at [now] is admitted exactly when that number is below the limit; and
    `remaining` at [now] is the limit minus that number. *)
Theorem sliding_window_exact (this : RateGate) (key : string) (times : list Z)
    (now : Z) (st : MemoryBackend) :
  backend_get key st = [] →
  StronglySorted Z.le times →
  Forall (λ t, t ≤ now) times →
  let outcomes := result (hits this key times) st in
  let st' := final (hits this key times) st in
  let count :=
    Z.of_nat (length (valid (now - windowMs this) (admitted_times times outcomes))) in
  count ≤ Z.max 0 (limit this) ∧
  (result (hit this key now) st' = inr tt ↔ count < limit this) ∧
  result (remaining this key now) st' = Z.max 0 (limit this - count).
Proof.
  intros Hfresh Hsorted Hpast outcomes st' count.
  assert (Hlo : ∃ lo, lo ≤ now ∧ Forall (λ t, lo ≤ t) times).
  { destruct times as [|t rest]; [exists now; split; [lia|constructor]|].
    exists t. apply StronglySorted_cons in Hsorted as [Hrest _].
    apply Forall_cons in Hpast as [Ht _].
    split; [done|]. constructor; [lia|done]. }
  destruct Hlo as (lo & Hlonow & Hlo).
  destruct (hits_track this key times st [] lo Hsorted Hlo) with (now := now)
    as [Hv Hb]; [by rewrite Hfresh|rewrite Hfresh; simpl; lia|done|done|].
  fold st' in Hv, Hb. fold outcomes in Hv. rewrite app_nil_l in Hv.
  specialize (Hv (now - windowMs this) ltac:(lia)).
  pose proof (length_valid (now - windowMs this) (backend_get key st')) as Hlen.
  subst count. rewrite <- Hv. unfold result.
  rewrite exec_remaining. cbn [fst].
  split; [lia|]. split; [|done].
  destruct (decide (Z.of_nat (length (valid (now - windowMs this)
                                        (backend_get key st'))) < limit this))
    as [Hlt|Hge].
  - rewrite exec_hit_ok by done. done.
  - rewrite exec_hit_fail by lia. cbn [fst]. split; [done|lia].
Qed.

Lemma sliding_window_exact_witness :
  Z.of_nat (length (valid (1006 - windowMs gate_2_1000)
    (admitted_times [5; 6; 7; 1005]
       (result (hits gate_2_1000 "user1" [5; 6; 7; 1005]) (∅ : MemoryBackend)))))
  ≤ Z.max 0 (limit gate_2_1000).
Proof.
  assert (Hfresh : backend_get "user1" (∅ : MemoryBackend) = []) by reflexivity.
  assert (Hsorted : StronglySorted Z.le [5; 6; 7; 1005]).
  { repeat constructor; discriminate. }
  assert (Hpast : Forall (λ t, t ≤ 1006) [5; 6; 7; 1005]).
  { repeat constructor; discriminate. }
  exact (proj1 (sliding_window_exact gate_2_1000 "user1" [5; 6; 7; 1005] 1006 ∅
                  Hfresh Hsorted Hpast)).
Defined.

Lemma tidy_weaken (hi hi' : Z) (st : MemoryBackend) :
  hi ≤ hi' → tidy hi st → tidy hi' st.
Proof.
  intros Hle Ht key l Hl. destruct (Ht key l Hl) as (Hne & Hs & Hb).
  repeat split; [done|done|].
  eapply Forall_impl; [exact Hb|]. simpl. intros; lia.
Qed.

Lemma valid_upper (windowStart hi : Z) (l : list Z) :
  Forall (λ ts, ts ≤ hi) l → Forall (λ ts, ts ≤ hi) (valid windowStart l).
Proof.
  intros Hb. apply Forall_forall. intros ts [_ Hts]%elem_of_valid.
  by apply (proj1 (Forall_forall _ _) Hb).
Qed.

Lemma after_tidy (this : RateGate) (c : gate_call) (hi : Z) (st : MemoryBackend) :
  tidy hi st → hi ≤ call_time c → tidy (call_time c) (after this c st).
Proof.
  intros Ht Hle.
  destruct c as [key now|key now|key now|key now|now]; simpl in *.
  - unfold final. rewrite exec_check. by apply (tidy_weaken hi).
  - unfold final.
    destruct (decide (Z.of_nat (length (valid (now - windowMs this)
                                          (backend_get key st))) < limit this))
      as [Hlt|Hge]; [|rewrite exec_hit_fail by lia; by apply (tidy_weaken hi)].
    rewrite exec_hit_ok by done. cbn [fst snd]. intros k l. simpl.
    destruct (decide (k = key)) as [->|Hne];
      [|rewrite lookup_insert_ne by done; by apply (tidy_weaken hi)].
    rewrite lookup_insert_eq. intros [= <-].
    assert (Hold : StronglySorted Z.le (default [] (st !! key)) ∧
                   Forall (λ ts, ts ≤ hi) (default [] (st !! key))).
    { destruct (st !! key) as [l0|] eqn:Hl0; simpl; [|by split; constructor].
      by destruct (Ht key l0 Hl0) as (_ & ? & ?). }
    destruct Hold as [Hs Hb].
    pose proof (valid_upper (now - windowMs this) hi _ Hb) as Hvb.
    split; [by destruct (valid _ _)|]. split.
    + apply StronglySorted_app_2; [|by apply valid_sorted|repeat constructor].
      intros x1 x2 Hx1 ->%list_elem_of_singleton.
      apply (proj1 (Forall_forall _ _) Hvb) in Hx1. lia.
    + apply Forall_app. split; [|by repeat constructor].
      eapply Forall_impl; [exact Hvb|]. simpl. intros; lia.
  - unfold final. rewrite exec_resetIn. by apply (tidy_weaken hi).
  - unfold final. rewrite exec_remaining. by apply (tidy_weaken hi).
  - intros key kept. unfold final. rewrite exec_cleanup. cbn [fst snd].
    rewrite lookup_omap.
    destruct (st !! key) as [l|] eqn:Hl; simpl; [|done].
    unfold swept. case_bool_decide as Hv; [done|]. intros [= <-].
    destruct (Ht key l Hl) as (_ & Hs & Hb).
    split; [done|]. split; [by apply valid_sorted|].
    apply valid_upper. eapply Forall_impl; [exact Hb|]. simpl. intros; lia.
Qed.

Lemma foldl_after_tidy (this : RateGate) (cs : list gate_call) :
  ∀ (st : MemoryBackend) (hi : Z),
    tidy hi st →
    StronglySorted Z.le (call_time <$> cs) →
    Forall (λ t, hi ≤ t) (call_time <$> cs) →
    ∀ now, hi ≤ now → Forall (λ t, t ≤ now) (call_time <$> cs) →
           tidy now (foldl (λ st c, after this c st) st cs).
Proof.
  induction cs as [|c cs IH]; intros st hi Ht Hsorted Hlo now Hnow Hpast.
  - by apply (tidy_weaken hi).
  - rewrite fmap_cons in *.
    apply StronglySorted_cons in Hsorted as [Hrest Hsorted].
    apply Forall_cons in Hlo as [Hc _].
    apply Forall_cons in Hpast as [Hcnow Hpast].
    simpl. apply (IH _ (call_time c)); try done.
    by apply (after_tidy this c hi).
Qed.

Lemma list_upper_bound (l : list Z) : ∃ hi, Forall (λ t, t ≤ hi) l.
Proof.
  induction l as [|t l [hi IH]]; [by exists 0|].
  exists (Z.max t hi). constructor; [lia|].
  eapply Forall_impl; [exact IH|]. simpl. intros; lia.
Qed.

(** X16. While the clock does not go back, a MemoryBackend that only the
    gate has written to stays in order: every stored sequence is non-empty
    and non-decreasing and holds no timestamp later than the latest call;
    so the first element of a pruned sequence, which `hit` and `resetIn`
    take as the oldest timestamp, is its minimum. *)
Theorem monotone_clock_keeps_order (this : RateGate) (cs : list gate_call)
    (key : string) (timestamps : list Z) :
  StronglySorted Z.le (call_time <$> cs) →
  after_all this cs !! key = Some timestamps →
  timestamps ≠ [] ∧
  StronglySorted Z.le timestamps ∧
  (∀ now, Forall (λ t, t ≤ now) (call_time <$> cs) →
          Forall (λ ts, ts ≤ now) timestamps) ∧
  (∀ windowStart oldest rest,
     valid windowStart timestamps = oldest :: rest →
     Forall (λ ts, oldest ≤ ts) rest).
Proof.
  intros Hsorted Hkey.
  assert (Htidy : ∀ now, Forall (λ t, t ≤ now) (call_time <$> cs) →
                         tidy now (after_all this cs)).
  { intros now Hpast. unfold after_all.
    destruct cs as [|c cs'];
      [intros k l Hl; simpl in Hl; by rewrite lookup_empty in Hl|].
    apply (foldl_after_tidy this (c :: cs') ∅ (call_time c)); try done.
    - rewrite fmap_cons in *.
      apply StronglySorted_cons in Hsorted as [Hrest _]. by constructor.
    - rewrite fmap_cons in Hpast. by apply Forall_cons in Hpast as [? _]. }
  destruct (list_upper_bound (call_time <$> cs)) as [hi Hhi].
  destruct (Htidy hi Hhi key timestamps Hkey) as (Hne & Hs & _).
  split; [done|]. split; [done|]. split.
  - intros now Hpast. by destruct (Htidy now Hpast key timestamps Hkey) as (_ & _ & ?).
  - intros windowStart oldest rest Hv.
    pose proof (valid_sorted windowStart timestamps Hs) as Hvs.
    rewrite Hv in Hvs. by apply StronglySorted_cons in Hvs as [? _].
Qed.

Lemma monotone_clock_keeps_order_witness :
  StronglySorted Z.le
    (call_time <$> [CallHit "user1" 5; CallCheck "user2" 6; CallHit "user1" 6;
                    CallCleanup 900]) ∧
  after_all gate_2_1000
    [CallHit "user1" 5; CallCheck "user2" 6; CallHit "user1" 6; CallCleanup 900]
    !! "user1" = Some [5; 6] ∧
  StronglySorted Z.le [5; 6].
Proof.
  assert (Hsorted : StronglySorted Z.le
            (call_time <$> [CallHit "user1" 5; CallCheck "user2" 6;
                            CallHit "user1" 6; CallCleanup 900])).
  { repeat constructor; discriminate. }
  assert (Hkey : after_all gate_2_1000
            [CallHit "user1" 5; CallCheck "user2" 6; CallHit "user1" 6;
             CallCleanup 900] !! "user1" = Some [5; 6])
    by (vm_compute; reflexivity).
  split; [exact Hsorted|]. split; [exact Hkey|].
  exact (proj1 (proj2 (monotone_clock_keeps_order gate_2_1000 _ "user1" [5; 6]
                         Hsorted Hkey))).
Defined.

(* --------------------------------------------------------------------- *)
(* The error and the configuration                                       *)
(* --------------------------------------------------------------------- *)

(** X17. The delay in the error is the delay `resetIn` reports: with a
    positive limit, when `hit` throws at [now], its resetIn equals what
    `resetIn` returns at [now] on the same backend state, and the message
    prints that number. *)
Theorem error_resetIn_is_resetIn {B : Type} `{RateGateBackend B}
    (this : RateGate) (key : string) (now : Z) (b : B) (e : RateLimitError) :
  0 < limit this →
  result (hit this key now) b = inl e →
  resetIn_of e = result (resetIn this key now) b ∧
  name e = "RateLimitError" ∧
  message e = "Rate limit exceeded for " +:+ category this +:+
              ". Try again in " +:+
              jsnum_to_string (result (resetIn this key now) b) +:+ "s.".
Proof.
  intros Hpos He. unfold result in *.
  destruct (decide (Z.of_nat (length (valid (now - windowMs this)
                                        (backend_get key b))) < limit this))
    as [Hlt|Hge]; [rewrite exec_hit_ok in He by done; done|].
  destruct (exec_hit_fail_oldest this key now b Hpos)
    as (oldest & rest & Hv & Hex); [lia|].
  rewrite Hex in He. injection He as <-.
  rewrite exec_resetIn, Hv. cbn [fst resetIn_of name message].
  assert (Hin : oldest ∈ valid (now - windowMs this) (backend_get key b))
    by (rewrite Hv; left).
  apply elem_of_valid in Hin as [Hgt _].
  pose proof (ceil_div_pos (oldest + windowMs this - now) 1000
                ltac:(lia) ltac:(lia)).
  rewrite Z.max_r by lia. done.
Qed.

Lemma error_resetIn_is_resetIn_witness :
  ∃ e, result (hit gate_2_1000 "user1" 7)
         ({["user1" := [5; 6]]} : MemoryBackend) = inl e ∧
       resetIn_of e = result (resetIn gate_2_1000 "user1" 7)
                        ({["user1" := [5; 6]]} : MemoryBackend).
Proof.
  assert (Hpos : 0 < limit gate_2_1000) by (simpl; lia).
  assert (He : result (hit gate_2_1000 "user1" 7)
                 ({["user1" := [5; 6]]} : MemoryBackend)
               = inl (new_RateLimitError
                        "Rate limit exceeded for test. Try again in 1s."
                        (Num 1) 2 1000))
    by (vm_compute; reflexivity).
  eexists. split; [exact He|].
  exact (proj1 (error_resetIn_is_resetIn gate_2_1000 "user1" 7
                  ({["user1" := [5; 6]]} : MemoryBackend) _ Hpos He)).
Defined.

(** X18. The constructor does not validate the limit.  With a limit of 0
    or less every `hit` throws and writes nothing, `check` is false and
    `remaining` is 0, on every backend state; and when the key has no
    valid timestamp the error's resetIn is NaN. *)
Theorem nonpositive_limit_blocks_all {B : Type} `{RateGateBackend B}
    (this : RateGate) (key : string) (now : Z) (b : B) :
  limit this ≤ 0 →
  (∃ e, exec (hit this key now) b = (inl e, b, [CGet key]) ∧
        limit_of e = limit this ∧ windowMs_of e = windowMs this ∧
        (valid (now - windowMs this) (backend_get key b) = [] →
         resetIn_of e = NaN)) ∧
  result (check this key now) b = false ∧
  result (remaining this key now) b = 0.
Proof.
  intros Hlim. unfold result.
  rewrite exec_check, exec_remaining, exec_hit_fail by lia. cbn [fst].
  split; [|split; [apply bool_decide_eq_false_2|]; lia].
  eexists. split; [reflexivity|]. simpl. repeat split.
  intros Hv. by rewrite Hv.
Qed.

Lemma nonpositive_limit_blocks_all_witness :
  limit {| limit := 0; windowMs := 1000; category := "api" |} ≤ 0 ∧
  result (check {| limit := 0; windowMs := 1000; category := "api" |} "user1" 10)
         (∅ : MemoryBackend) = false.
Proof.
  assert (Hlim : limit {| limit := 0; windowMs := 1000; category := "api" |} ≤ 0)
    by (simpl; lia).
  split; [exact Hlim|].
  exact (proj1 (proj2 (nonpositive_limit_blocks_all
                         {| limit := 0; windowMs := 1000; category := "api" |}
                         "user1" 10 (∅ : MemoryBackend) Hlim))).
Defined.

(** X19. The constructor does not validate the window.  With a window of
    0 ms or less and a positive limit nothing is ever limited: hits on a
    key with nothing stored, at instants that do not go back, are all
    admitted on MemoryBackend, however many there are. *)
Theorem nonpositive_window_never_limits (this : RateGate) (key : string)
    (times : list Z) (st : MemoryBackend) :
  windowMs this ≤ 0 →
  0 < limit this →
  backend_get key st = [] →
  StronglySorted Z.le times →
  result (hits this key times) st = replicate (length times) (inr tt).
Proof.
  intros Hw Hpos Hfresh Hsorted. unfold result.
  assert (Hgen : ∀ (st : MemoryBackend) lo,
            Forall (λ ts, ts ≤ lo) (backend_get key st) →
            Forall (λ t, lo ≤ t) times →
            (exec (hits this key times) st).1.1
              = replicate (length times) (inr tt)).
  { clear st Hfresh.
    induction times as [|t rest IH]; intros st lo Hold Hlo; [done|].
    apply StronglySorted_cons in Hsorted as [Hrest Hsorted].
    apply Forall_cons in Hlo as [Hlot _].
    assert (Hexp : Forall (λ ts, ts ≤ t - windowMs this) (backend_get key st)).
    { eapply Forall_impl; [exact Hold|]. simpl. intros; lia. }
    apply valid_expired in Hexp.
    rewrite exec_hits_cons, exec_hit_ok; rewrite Hexp; [|simpl; lia].
    specialize (IH Hsorted (backend_set key ([] ++ [t]) st) t).
    destruct (exec (hits this key rest) _) as [[rs b2] log2].
    cbn [fst snd length replicate] in *. f_equal. apply IH; [|done].
    simpl. rewrite lookup_insert_eq. simpl. repeat constructor. lia. }
  destruct times as [|t rest]; [done|].
  apply (Hgen st t); [by rewrite Hfresh|].
  apply StronglySorted_cons in Hsorted as [Hrest _]. constructor; [lia|done].
Qed.

Lemma nonpositive_window_never_limits_witness :
  result (hits {| limit := 1; windowMs := 0; category := "api" |} "user1" [5; 5; 6])
         (∅ : MemoryBackend) = [inr tt; inr tt; inr tt].
Proof.
  assert (Hw : windowMs {| limit := 1; windowMs := 0; category := "api" |} ≤ 0)
    by (simpl; lia).
  assert (Hpos : 0 < limit {| limit := 1; windowMs := 0; category := "api" |})
    by (simpl; lia).
  assert (Hfresh : backend_get "user1" (∅ : MemoryBackend) = []) by reflexivity.
  assert (Hsorted : StronglySorted Z.le [5; 5; 6]).
  { repeat constructor; discriminate. }
  exact (nonpositive_window_never_limits
           {| limit := 1; windowMs := 0; category := "api" |} "user1" [5; 5; 6] ∅
           Hw Hpos Hfresh Hsorted).
Defined.
